(** * VPG with GAE-Lambda: trajectory buffer and training loop

    A shallow embedding of [algos/vpg.py]: the discounted cumulative sum,
    the experience buffer [VPGBuffer] and the body of the main loop of
    [vpg].  Array entries are exact real numbers; the advantage array is
    the only one that passes through a division, so its entries carry an
    extra "not a number" value. *)

From Stdlib Require Import Reals Lra Lia List Arith ZArith Bool Permutation.
From Stdlib Require String.
Import ListNotations.

Open Scope R_scope.

(** ** Arrays *)

Module Np.

(** [x[:-1]] *)
Definition init_part {A} (l : list A) : list A := removelast l.

(** [x[1:]] *)
Definition tail_part {A} (l : list A) : list A := tl l.

(** [np.append(x, v)] for a one-dimensional [x] and a scalar [v]. *)
Definition append {A} (l : list A) (v : A) : list A := l ++ [v].

(** Bounds of [slice(start, stop)] on an array of length [n], for
    non-negative [start] and [stop]: both ends are clipped to [n], and a
    slice whose end lies before its start is empty. *)
Definition slice_lo (start n : nat) : nat := Nat.min start n.
Definition slice_len (start stop n : nat) : nat :=
  Nat.min stop n - Nat.min start n.

(** [x[start:stop]] *)
Definition slice {A} (l : list A) (start stop : nat) : list A :=
  firstn (slice_len start stop (length l)) (skipn (slice_lo start (length l)) l).

(** [x[start:stop] = v].  The value must have the length of the slice, or
    length one (it is then broadcast); anything else is numpy's
    [ValueError], rendered as [None]. *)
Definition set_slice {A} (l : list A) (start stop : nat) (v : list A)
  : option (list A) :=
  let lo := slice_lo start (length l) in
  let k := slice_len start stop (length l) in
  if Nat.eqb (length v) k then
    Some (firstn lo l ++ v ++ skipn (lo + k) l)
  else
    match v with
    | [c] => Some (firstn lo l ++ repeat c k ++ skipn (lo + k) l)
    | _ => None
    end.

(** [x[i] = v] for [i] within bounds; out of bounds is [IndexError]. *)
Fixpoint set_item {A} (l : list A) (i : nat) (v : A) : option (list A) :=
  match l, i with
  | [], _ => None
  | _ :: t, O => Some (v :: t)
  | h :: t, S j =>
      match set_item t j v with
      | Some t' => Some (h :: t')
      | None => None
      end
  end.

(** Element-wise binary operation on two arrays of one shape. *)
Fixpoint map2 {A B C} (f : A -> B -> C) (x : list A) (y : list B) : list C :=
  match x, y with
  | a :: x', b :: y' => f a b :: map2 f x' y'
  | _, _ => []
  end.

End Np.

(** ** scipy.signal.lfilter

    The documented difference equation of a direct-form filter,
    [a[0]*y[n] = b[0]*x[n] + b[1]*x[n-1] + ... - a[1]*y[n-1] - ...],
    with zero initial conditions; an empty input gives an empty output.
    [xh] and [yh] are the earlier inputs and outputs, most recent first. *)

Definition dot (c h : list R) : R :=
  fold_right Rplus 0 (Np.map2 Rmult c h).

Fixpoint lfilter_from (b a xh yh x : list R) : list R :=
  match x with
  | [] => []
  | xn :: x' =>
      let yn := (dot b (xn :: xh) - dot (tl a) yh) / hd 1 a in
      yn :: lfilter_from b a (xn :: xh) (yn :: yh) x'
  end.

Definition lfilter (b a x : list R) : list R := lfilter_from b a [] [] x.

(** ** core.py: discount_cumsum *)

Definition discount_cumsum (x : list R) (discount : R) : list R :=
  rev (lfilter [1] [1; - discount] (rev x)).

(** The sum the docstring spells out, in its indexed form:
    [discount^k * x[0] + discount^(k+1) * x[1] + ...]. *)
Fixpoint power_sum (discount : R) (k : nat) (x : list R) : R :=
  match x with
  | [] => 0
  | x0 :: x' => discount ^ k * x0 + power_sum discount (S k) x'
  end.

(** ** Array entries that may be "not a number"

    The advantages are divided by a computed standard deviation in [get].
    A numpy division by zero does not raise: it yields [nan] or [inf].
    [Xnan] stands for every such non-finite entry, and is absorbing. *)

Inductive xreal : Type :=
| Xnan
| Xreal (r : R).

Definition xlift2 (f : R -> R -> R) (x y : xreal) : xreal :=
  match x, y with
  | Xreal a, Xreal b => Xreal (f a b)
  | _, _ => Xnan
  end.

Definition xadd := xlift2 Rplus.
Definition xsub := xlift2 Rminus.
Definition xmul := xlift2 Rmult.

Definition xdiv (x y : xreal) : xreal :=
  match x, y with
  | Xreal a, Xreal b => if Req_dec_T b 0 then Xnan else Xreal (a / b)
  | _, _ => Xnan
  end.

Definition xsqrt (x : xreal) : xreal :=
  match x with
  | Xreal a => if Rlt_dec a 0 then Xnan else Xreal (sqrt a)
  | Xnan => Xnan
  end.

Definition xsum (l : list xreal) : xreal := fold_right xadd (Xreal 0) l.

Definition is_finite (x : xreal) : bool :=
  match x with Xreal _ => true | Xnan => false end.

(** ** utils.mpi_tools: mpi_statistics_scalar *)

(** Modelled from the spec: [mpi_statistics_scalar] lives in
    [utils/mpi_tools.py], which is not part of the sources at hand.  The
    spec describes it as the mean and the standard deviation of the array
    "across all parallel workers (a distributed reduction, not local)".
    [peers] holds the arrays the other workers contribute to the same
    collective call; [x] is the caller's own array.  The reduction adds up
    per-worker sums and counts, and the deviation is the population one. *)
Definition mpi_sum (peers : list xreal) (local : xreal) : xreal :=
  xadd local (xsum peers).

Definition sum_sq_dev (mean : xreal) (x : list xreal) : xreal :=
  xsum (map (fun a => xmul (xsub a mean) (xsub a mean)) x).

Definition mpi_statistics_scalar (peers : list (list xreal)) (x : list xreal)
  : xreal * xreal :=
  let global_sum := mpi_sum (map xsum peers) (xsum x) in
  let global_n :=
    Xreal (INR (length x + list_sum (map (@length xreal) peers))) in
  let mean := xdiv global_sum global_n in
  let global_sum_sq := mpi_sum (map (sum_sq_dev mean) peers) (sum_sq_dev mean x) in
  let std := xsqrt (xdiv global_sum_sq global_n) in
  (mean, std).

(** ** Failures

    Python raises [AssertionError] from both [assert] statements of the
    buffer; the two are told apart here by the assertion that failed, under
    the names the spec gives them.  [IndexError] and [ValueError] are
    numpy's, for an index out of bounds and for a shape mismatch. *)

Inductive error : Type :=
| BufferFull       (* assert self.ptr < self.max_size *)
| BufferNotFull    (* assert self.ptr == self.max_size *)
| IndexError
| ValueError.

Inductive result (A : Type) : Type :=
| Ok (a : A)
| Raise (e : error).

Arguments Ok {A} a.
Arguments Raise {A} e.

Definition bind {A B} (m : result A) (k : A -> result B) : result B :=
  match m with
  | Ok a => k a
  | Raise e => Raise e
  end.

Definition or_raise {A} (e : error) (o : option A) : result A :=
  match o with
  | Some a => Ok a
  | None => Raise e
  end.

Declare Scope result_scope.
Delimit Scope result_scope with result.
Notation "x <- m ;; k" := (bind m (fun x => k))
  (at level 61, m at next level, right associativity) : result_scope.
Notation "' p <- m ;; k" := (bind m (fun x => match x with p => k end))
  (at level 61, p pattern, m at next level, right associativity) : result_scope.
Open Scope result_scope.

Definition is_ok {A} (m : result A) : bool :=
  match m with Ok _ => true | Raise _ => false end.

(** ** Experience buffer *)

Section Buffer.

(** One observation and one action, as stored in a slot of [obs_buf] and
    [act_buf]; [obs_zero] and [act_zero] are the slots [np.zeros] makes. *)
Variables Obs Act : Type.
Variable obs_zero : Obs.
Variable act_zero : Act.

Record VPGBuffer : Type := mkVPGBuffer {
  obs_buf : list Obs;
  act_buf : list Act;
  adv_buf : list xreal;
  rew_buf : list R;
  ret_buf : list R;
  val_buf : list R;
  logp_buf : list R;
  gamma : R;
  lam : R;
  ptr : nat;
  path_start_idx : nat;
  max_size : nat
}.

(** [VPGBuffer.__init__] *)
Definition init (size : nat) (gamma lam : R) : VPGBuffer :=
  {| obs_buf := repeat obs_zero size;
     act_buf := repeat act_zero size;
     adv_buf := repeat (Xreal 0) size;
     rew_buf := repeat 0 size;
     ret_buf := repeat 0 size;
     val_buf := repeat 0 size;
     logp_buf := repeat 0 size;
     gamma := gamma;
     lam := lam;
     ptr := 0;
     path_start_idx := 0;
     max_size := size |}.

(** [VPGBuffer.store] *)
Definition store (b : VPGBuffer) (obs : Obs) (act : Act) (rew val logp : R)
  : result VPGBuffer :=
  if ptr b <? max_size b then
    obs_buf' <- or_raise IndexError (Np.set_item (obs_buf b) (ptr b) obs) ;;
    act_buf' <- or_raise IndexError (Np.set_item (act_buf b) (ptr b) act) ;;
    rew_buf' <- or_raise IndexError (Np.set_item (rew_buf b) (ptr b) rew) ;;
    val_buf' <- or_raise IndexError (Np.set_item (val_buf b) (ptr b) val) ;;
    logp_buf' <- or_raise IndexError (Np.set_item (logp_buf b) (ptr b) logp) ;;
    Ok {| obs_buf := obs_buf';
          act_buf := act_buf';
          adv_buf := adv_buf b;
          rew_buf := rew_buf';
          ret_buf := ret_buf b;
          val_buf := val_buf';
          logp_buf := logp_buf';
          gamma := gamma b;
          lam := lam b;
          ptr := ptr b + 1;
          path_start_idx := path_start_idx b;
          max_size := max_size b |}
  else Raise BufferFull.

(** The rewards and the values of the open path, each extended by
    [last_val], and the residuals of GAE-Lambda computed from them. *)
Definition path_rews (b : VPGBuffer) (last_val : R) : list R :=
  Np.append (Np.slice (rew_buf b) (path_start_idx b) (ptr b)) last_val.

Definition path_vals (b : VPGBuffer) (last_val : R) : list R :=
  Np.append (Np.slice (val_buf b) (path_start_idx b) (ptr b)) last_val.

Definition path_deltas (b : VPGBuffer) (last_val : R) : list R :=
  let rews := path_rews b last_val in
  let vals := path_vals b last_val in
  Np.map2 Rminus
    (Np.map2 Rplus (Np.init_part rews)
                   (map (Rmult (gamma b)) (Np.tail_part vals)))
    (Np.init_part vals).

(** [VPGBuffer.finish_path] *)
Definition finish_path (b : VPGBuffer) (last_val : R) : result VPGBuffer :=
  let rews := path_rews b last_val in
  let deltas := path_deltas b last_val in
  adv_buf' <- or_raise ValueError
    (Np.set_slice (adv_buf b) (path_start_idx b) (ptr b)
       (map Xreal (discount_cumsum deltas (gamma b * lam b)))) ;;
  ret_buf' <- or_raise ValueError
    (Np.set_slice (ret_buf b) (path_start_idx b) (ptr b)
       (Np.init_part (discount_cumsum rews (gamma b)))) ;;
  Ok {| obs_buf := obs_buf b;
        act_buf := act_buf b;
        adv_buf := adv_buf';
        rew_buf := rew_buf b;
        ret_buf := ret_buf';
        val_buf := val_buf b;
        logp_buf := logp_buf b;
        gamma := gamma b;
        lam := lam b;
        ptr := ptr b;
        path_start_idx := ptr b;
        max_size := max_size b |}.

(** What [get] hands to the caller:
    [(obs_buf, act_buf, adv_buf, ret_buf, logp_buf)]. *)
Record Batch : Type := mkBatch {
  batch_obs : list Obs;
  batch_act : list Act;
  batch_adv : list xreal;
  batch_ret : list R;
  batch_logp : list R
}.

(** The advantage normalization of [get]:
    [(self.adv_buf - adv_mean) / adv_std]. *)
Definition normalize (adv_mean adv_std : xreal) (adv : list xreal) : list xreal :=
  map (fun a => xdiv (xsub a adv_mean) adv_std) adv.

(** [VPGBuffer.get].  [peers] are the advantage arrays the other workers
    bring to the collective call inside. *)
Definition get (peers : list (list xreal)) (b : VPGBuffer)
  : result (VPGBuffer * Batch) :=
  if ptr b =? max_size b then
    let '(adv_mean, adv_std) := mpi_statistics_scalar peers (adv_buf b) in
    let adv_buf' := normalize adv_mean adv_std (adv_buf b) in
    Ok ({| obs_buf := obs_buf b;
           act_buf := act_buf b;
           adv_buf := adv_buf';
           rew_buf := rew_buf b;
           ret_buf := ret_buf b;
           val_buf := val_buf b;
           logp_buf := logp_buf b;
           gamma := gamma b;
           lam := lam b;
           ptr := 0;
           path_start_idx := 0;
           max_size := max_size b |},
        {| batch_obs := obs_buf b;
           batch_act := act_buf b;
           batch_adv := adv_buf';
           batch_ret := ret_buf b;
           batch_logp := logp_buf b |})
  else Raise BufferNotFull.

(** A buffer that [get] accepts. *)
Definition is_full (b : VPGBuffer) : Prop := ptr b = max_size b.

(** The advantages among what a successful [get] produced. *)
Definition returned_adv (o : VPGBuffer * Batch) : list xreal :=
  batch_adv (snd o).

(** Every worker calls [get] at the same point of its run; each call sees
    the advantage arrays of all the other workers. *)
Fixpoint each_with_others {B} (f : list VPGBuffer -> VPGBuffer -> B)
    (before after : list VPGBuffer) : list B :=
  match after with
  | [] => []
  | b :: after' =>
      f (before ++ after') b :: each_with_others f (before ++ [b]) after'
  end.

Definition collective_get (workers : list VPGBuffer)
  : list (result (VPGBuffer * Batch)) :=
  each_with_others (fun others b => get (map adv_buf others) b) [] workers.

(** A caller's writes to the buffer between two [get]s, in order. *)
Inductive call : Type :=
| Store (obs : Obs) (act : Act) (rew val logp : R)
| FinishPath (last_val : R).

Definition run_call (b : VPGBuffer) (c : call) : result VPGBuffer :=
  match c with
  | Store obs act rew val logp => store b obs act rew val logp
  | FinishPath last_val => finish_path b last_val
  end.

Fixpoint run_calls (b : VPGBuffer) (cs : list call) : result VPGBuffer :=
  match cs with
  | [] => Ok b
  | c :: cs' => b' <- run_call b c ;; run_calls b' cs'
  end.

Definition is_store (c : call) : bool :=
  match c with Store _ _ _ _ _ => true | FinishPath _ => false end.

Definition count_stores (cs : list call) : nat :=
  length (filter is_store cs).

(** The observations, actions, rewards, values and log-probabilities the
    [store] calls of a sequence were given, in order. *)
Definition stored_obs (cs : list call) : list Obs :=
  flat_map (fun c => match c with
                     | Store obs _ _ _ _ => [obs]
                     | FinishPath _ => []
                     end) cs.

Definition stored_act (cs : list call) : list Act :=
  flat_map (fun c => match c with
                     | Store _ act _ _ _ => [act]
                     | FinishPath _ => []
                     end) cs.

Definition stored_rew (cs : list call) : list R :=
  flat_map (fun c => match c with
                     | Store _ _ rew _ _ => [rew]
                     | FinishPath _ => []
                     end) cs.

Definition stored_val (cs : list call) : list R :=
  flat_map (fun c => match c with
                     | Store _ _ _ val _ => [val]
                     | FinishPath _ => []
                     end) cs.

Definition stored_logp (cs : list call) : list R :=
  flat_map (fun c => match c with
                     | Store _ _ _ _ logp => [logp]
                     | FinishPath _ => []
                     end) cs.

(** The arrays of a buffer all have [max_size] slots. *)
Definition shaped (b : VPGBuffer) : Prop :=
  length (obs_buf b) = max_size b /\
  length (act_buf b) = max_size b /\
  length (adv_buf b) = max_size b /\
  length (rew_buf b) = max_size b /\
  length (ret_buf b) = max_size b /\
  length (val_buf b) = max_size b /\
  length (logp_buf b) = max_size b.

(** The cursor invariant of the spec. *)
Definition cursors_ok (b : VPGBuffer) : Prop :=
  (0 <= path_start_idx b <= ptr b)%nat /\ (ptr b <= max_size b)%nat.

End Buffer.

Arguments mkVPGBuffer {Obs Act}.
Arguments obs_buf {Obs Act}.
Arguments act_buf {Obs Act}.
Arguments adv_buf {Obs Act}.
Arguments rew_buf {Obs Act}.
Arguments ret_buf {Obs Act}.
Arguments val_buf {Obs Act}.
Arguments logp_buf {Obs Act}.
Arguments gamma {Obs Act}.
Arguments lam {Obs Act}.
Arguments ptr {Obs Act}.
Arguments path_start_idx {Obs Act}.
Arguments max_size {Obs Act}.
Arguments store {Obs Act}.
Arguments path_rews {Obs Act}.
Arguments path_vals {Obs Act}.
Arguments path_deltas {Obs Act}.
Arguments finish_path {Obs Act}.
Arguments get {Obs Act}.
Arguments shaped {Obs Act}.
Arguments is_full {Obs Act}.
Arguments returned_adv {Obs Act}.
Arguments each_with_others {Obs Act B}.
Arguments collective_get {Obs Act}.
Arguments Store {Obs Act}.
Arguments FinishPath {Obs Act}.
Arguments run_call {Obs Act}.
Arguments run_calls {Obs Act}.
Arguments is_store {Obs Act}.
Arguments count_stores {Obs Act}.
Arguments stored_obs {Obs Act}.
Arguments stored_act {Obs Act}.
Arguments stored_rew {Obs Act}.
Arguments stored_val {Obs Act}.
Arguments stored_logp {Obs Act}.
Arguments cursors_ok {Obs Act}.
Arguments mkBatch {Obs Act}.
Arguments batch_obs {Obs Act}.
Arguments batch_act {Obs Act}.
Arguments batch_adv {Obs Act}.
Arguments batch_ret {Obs Act}.
Arguments batch_logp {Obs Act}.

Arguments init {Obs Act}.

(** ** The main loop of vpg *)

Section Training.

Variables Obs Act : Type.
Variable obs_zero : Obs.
Variable act_zero : Act.

(** The environment, a black box behind [reset] and [step].  [Env] is its
    hidden state, which both calls advance. *)
Variable Env : Type.
Variable env_reset : Env -> Obs * Env.
Variable env_step : Env -> Act -> (Obs * R * bool) * Env.

(** The actor-critic.  [AC] holds its parameters and its source of
    randomness.  [actor_critic ac o] is the call
    [actor_critic(o.reshape(1, -1), None)]: it samples an action and returns
    it with its log-probability and the critic's value of [o].
    [ac_update] stands for the gradient steps and the parameter
    synchronisation that [update] runs on the batch [get] returned. *)
Variable AC : Type.
Variable actor_critic : AC -> Obs -> (Act * R * R) * AC.
Variable ac_update : AC -> Batch Obs Act -> AC.

(** Keyword arguments of [vpg]. *)
Variable local_steps_per_epoch : nat.
Variable max_ep_len : Z.

(** Per epoch, the advantage arrays of the other workers. *)
Variable peers : nat -> list (list xreal).

(** The variables the loop carries from one iteration to the next. *)
Record LoopState : Type := mkLoopState {
  st_o : Obs;
  st_r : R;
  st_d : bool;
  st_ep_ret : R;
  st_ep_len : Z;
  st_buf : VPGBuffer Obs Act;
  st_env : Env;
  st_ac : AC;
  st_all_ep_ret : list R
}.

(** What one iteration did with the buffer and the environment: the
    reward and the value it stored, what [env.step] answered, and the
    argument of [finish_path] when the path was closed. *)
Record Timestep : Type := mkTimestep {
  ts_stored_rew : R;
  ts_stored_val : R;
  ts_env_rew : R;
  ts_env_done : bool;
  ts_cut_by_len : bool;
  ts_cut_by_epoch : bool;
  ts_last_val : option R
}.

(** [o, r, d, ep_ret, ep_len = env.reset(), 0, False, 0, 0] with a fresh
    buffer. *)
Definition start (gamma lam : R) (env : Env) (ac : AC) : LoopState :=
  let '(o, env') := env_reset env in
  {| st_o := o; st_r := 0; st_d := false; st_ep_ret := 0; st_ep_len := 0%Z;
     st_buf := init obs_zero act_zero local_steps_per_epoch gamma lam;
     st_env := env'; st_ac := ac; st_all_ep_ret := [] |}.

(** The body of [for t in range(local_steps_per_epoch)]. *)
Definition iteration (t : nat) (s : LoopState) : result (LoopState * Timestep) :=
  let '(a, logp_t, v_t, ac') := actor_critic (st_ac s) (st_o s) in
  buf1 <- store (st_buf s) (st_o s) a (st_r s) v_t logp_t ;;
  let '(o, r, d, env1) := env_step (st_env s) a in
  let ep_ret := st_ep_ret s + r in
  let ep_len := (st_ep_len s + 1)%Z in
  let by_len := (ep_len =? max_ep_len)%Z in
  let by_epoch := (Z.of_nat t =? Z.of_nat local_steps_per_epoch - 1)%Z in
  let terminal := d || by_len in
  if terminal || by_epoch then
    let last_val := if d then r else v_t in
    buf2 <- finish_path buf1 last_val ;;
    let all_ep_ret :=
      if terminal then st_all_ep_ret s ++ [ep_ret] else st_all_ep_ret s in
    let '(o0, env2) := env_reset env1 in
    Ok ({| st_o := o0; st_r := 0; st_d := false; st_ep_ret := 0;
           st_ep_len := 0%Z; st_buf := buf2; st_env := env2; st_ac := ac';
           st_all_ep_ret := all_ep_ret |},
        {| ts_stored_rew := st_r s; ts_stored_val := v_t; ts_env_rew := r;
           ts_env_done := d; ts_cut_by_len := by_len;
           ts_cut_by_epoch := by_epoch; ts_last_val := Some last_val |})
  else
    Ok ({| st_o := o; st_r := r; st_d := d; st_ep_ret := ep_ret;
           st_ep_len := ep_len; st_buf := buf1; st_env := env1; st_ac := ac';
           st_all_ep_ret := st_all_ep_ret s |},
        {| ts_stored_rew := st_r s; ts_stored_val := v_t; ts_env_rew := r;
           ts_env_done := d; ts_cut_by_len := by_len;
           ts_cut_by_epoch := by_epoch; ts_last_val := None |}).

(** Iterations [t], [t+1], ..., [t+n-1] of the inner loop. *)
Fixpoint iterations (n t : nat) (s : LoopState)
  : result (LoopState * list Timestep) :=
  match n with
  | O => Ok (s, [])
  | S n' =>
      '(s1, ts) <- iteration t s ;;
      '(s2, tss) <- iterations n' (S t) s1 ;;
      Ok (s2, ts :: tss)
  end.

(** [update()]: take the batch out of the buffer and train on it. *)
Definition update (epoch : nat) (s : LoopState) : result LoopState :=
  '(buf', batch) <- get (peers epoch) (st_buf s) ;;
  Ok {| st_o := st_o s; st_r := st_r s; st_d := st_d s;
        st_ep_ret := st_ep_ret s; st_ep_len := st_ep_len s;
        st_buf := buf'; st_env := st_env s;
        st_ac := ac_update (st_ac s) batch;
        st_all_ep_ret := st_all_ep_ret s |}.

(** One pass of [for epoch in range(epochs)]: the inner loop, the update,
    and [all_ep_ret = []].  The statistics of the episode returns are only
    printed and plotted, and are left out. *)
Definition run_epoch (epoch : nat) (s : LoopState)
  : result (LoopState * list Timestep) :=
  '(s1, tss) <- iterations local_steps_per_epoch 0 s ;;
  s2 <- update epoch s1 ;;
  Ok ({| st_o := st_o s2; st_r := st_r s2; st_d := st_d s2;
         st_ep_ret := st_ep_ret s2; st_ep_len := st_ep_len s2;
         st_buf := st_buf s2; st_env := st_env s2; st_ac := st_ac s2;
         st_all_ep_ret := [] |}, tss).

(** Epochs [epoch], ..., [epoch+n-1]. *)
Fixpoint run_epochs (n epoch : nat) (s : LoopState)
  : result (LoopState * list Timestep) :=
  match n with
  | O => Ok (s, [])
  | S n' =>
      '(s1, tss) <- run_epoch epoch s ;;
      '(s2, rest) <- run_epochs n' (S epoch) s1 ;;
      Ok (s2, tss ++ rest)
  end.

(** [vpg]: the whole run, from the first [env.reset()]. *)
Definition vpg (epochs : nat) (gamma lam : R) (env : Env) (ac : AC)
  : result (LoopState * list Timestep) :=
  run_epochs epochs 0 (start gamma lam env ac).

(** The buffer of a loop state at the start of iteration [t]. *)
Definition collecting (t : nat) (s : LoopState) : Prop :=
  shaped (st_buf s) /\ cursors_ok (st_buf s) /\
  ptr (st_buf s) = t /\ max_size (st_buf s) = local_steps_per_epoch.

(** What iteration [t], started in [s], did with the rewards, read on the
    buffer and on the environment themselves.  [store] was called with the
    reward [st_r s] the loop carried in, which is what slot [ptr] of
    [rew_buf] holds afterwards, not the reward [r] that [env.step] has just
    returned.  When the path is closed, [finish_path] ran on the buffer
    [store] left, with [r] if the environment said [done] and with [v_t] if
    not; the environment was reset and the reward carried on is 0.  When
    the path stays open the buffer is the one [store] left and [r] is
    carried on to the next iteration. *)
Definition late_step (t : nat) (s : LoopState) (ts : Timestep)
    (s' : LoopState) : Prop :=
  let '(a, logp_t, v_t, ac') := actor_critic (st_ac s) (st_o s) in
  let '(o, r, d, env1) := env_step (st_env s) a in
  exists buf1,
    store (st_buf s) (st_o s) a (st_r s) v_t logp_t = Ok buf1 /\
    nth_error (rew_buf buf1) (ptr (st_buf s)) = Some (st_r s) /\
    nth_error (rew_buf (st_buf s')) (ptr (st_buf s)) = Some (st_r s) /\
    ts_stored_rew ts = st_r s /\ ts_stored_val ts = v_t /\
    ts_env_rew ts = r /\ ts_env_done ts = d /\
    if (d || (st_ep_len s + 1 =? max_ep_len)%Z)
       || (Z.of_nat t =? Z.of_nat local_steps_per_epoch - 1)%Z
    then
      ts_last_val ts = Some (if d then r else v_t) /\
      finish_path buf1 (if d then r else v_t) = Ok (st_buf s') /\
      st_r s' = 0 /\
      (st_o s', st_env s') = env_reset env1
    else
      ts_last_val ts = None /\
      st_buf s' = buf1 /\
      st_r s' = r /\ st_o s' = o /\ st_env s' = env1.

(** The timesteps [tss] are those of iterations [t], [t+1], ... run one
    after the other from [s] to [s'], each a [late_step]. *)
Fixpoint late_run (t : nat) (s : LoopState) (tss : list Timestep)
    (s' : LoopState) : Prop :=
  match tss with
  | [] => s' = s
  | ts :: rest =>
      exists s1,
        iteration t s = Ok (s1, ts) /\
        late_step t s ts s1 /\
        late_run (S t) s1 rest s'
  end.

(** The timesteps [tss] are those of [n] epochs run from [s] to [s']: in
    each epoch the inner loop is a [late_run] that leaves in [rew_buf]
    exactly the rewards its iterations stored, and the update that follows
    keeps the reward the loop carries. *)
Fixpoint late_epochs (n epoch : nat) (s : LoopState) (tss : list Timestep)
    (s' : LoopState) : Prop :=
  match n with
  | O => tss = [] /\ s' = s
  | S n' =>
      exists s1 s2 tss1 rest,
        tss = tss1 ++ rest /\
        iterations local_steps_per_epoch 0 s = Ok (s1, tss1) /\
        late_run 0 s tss1 s1 /\
        rew_buf (st_buf s1) = map ts_stored_rew tss1 /\
        run_epoch epoch s = Ok (s2, tss1) /\
        st_r s2 = st_r s1 /\
        late_epochs n' (S epoch) s2 rest s'
  end.

End Training.

Arguments mkLoopState {Obs Act Env AC}.
Arguments st_o {Obs Act Env AC}.
Arguments st_r {Obs Act Env AC}.
Arguments st_d {Obs Act Env AC}.
Arguments st_ep_ret {Obs Act Env AC}.
Arguments st_ep_len {Obs Act Env AC}.
Arguments st_buf {Obs Act Env AC}.
Arguments st_env {Obs Act Env AC}.
Arguments st_ac {Obs Act Env AC}.
Arguments st_all_ep_ret {Obs Act Env AC}.
Arguments start {Obs Act} obs_zero act_zero {Env} env_reset {AC}.
Arguments iteration {Obs Act Env} env_reset env_step {AC} actor_critic.
Arguments iterations {Obs Act Env} env_reset env_step {AC} actor_critic.
Arguments update {Obs Act Env AC} ac_update peers.
Arguments run_epoch {Obs Act Env} env_reset env_step {AC} actor_critic ac_update.
Arguments run_epochs {Obs Act Env} env_reset env_step {AC} actor_critic ac_update.
Arguments vpg {Obs Act} obs_zero act_zero {Env} env_reset env_step {AC}
  actor_critic ac_update.
Arguments collecting {Obs Act Env AC}.
Arguments late_step {Obs Act Env} env_reset env_step {AC} actor_critic.
Arguments late_run {Obs Act Env} env_reset env_step {AC} actor_critic.
Arguments late_epochs {Obs Act Env} env_reset env_step {AC} actor_critic
  ac_update.

(** The reward the loop carries out of a timestep: zero once the path is
    closed and the environment reset, else what [env.step] returned. *)
Definition carried (ts : Timestep) : R :=
  match ts_last_val ts with
  | Some _ => 0
  | None => ts_env_rew ts
  end.

(** A run in which every stored reward is the one carried out of the
    timestep before ([prev] for the first), and in which a step the
    environment ends hands its reward to [finish_path]. *)
Fixpoint delayed (prev : R) (tss : list Timestep) : Prop :=
  match tss with
  | [] => True
  | ts :: rest =>
      ts_stored_rew ts = prev /\
      (ts_env_done ts = true -> ts_last_val ts = Some (ts_env_rew ts)) /\
      delayed (carried ts) rest
  end.

(** The reward carried out of a whole run that started with [prev]. *)
Definition carried_out (prev : R) (tss : list Timestep) : R :=
  fold_left (fun _ ts => carried ts) tss prev.

(** ** Reference quantities

    Plain real-number counterparts of the running sum and of the
    statistics, used to state and prove the properties below. *)

(** A one-pole running sum: what [lfilter [1] [1; -d]] computes, started
    from the previous output [y0]. *)
Fixpoint running (d y0 : R) (x : list R) : list R :=
  match x with
  | [] => []
  | xn :: x' => (xn + d * y0) :: running d (xn + d * y0) x'
  end.

(** Sum, mean, sum of squared deviations and population standard
    deviation of a list of reals. *)
Definition Rsum (l : list R) : R := fold_right Rplus 0 l.

Definition Rmean (l : list R) : R := Rsum l / INR (length l).

Definition Rsq_dev (m : R) (l : list R) : R :=
  Rsum (map (fun a => (a - m) * (a - m)) l).

Definition Rstd (l : list R) : R :=
  sqrt (Rsq_dev (Rmean l) l / INR (length l)).

(** One normalized advantage. *)
Definition Rnorm (m s v : R) : R := (v - m) / s.

(** ** A small environment

    Observations are real numbers.  [reset] shows 5, every [step] shows 6
    and pays reward 1; [done] says whether a step ends the episode.  The
    critic's value of an observation is the observation itself, so that the
    value of the observation before a step (5) and of the one after it (6)
    can be told apart. *)

Definition toy_reset (e : unit) : R * unit := (5, e).

Definition toy_step (done : bool) (e : unit) (a : unit) : (R * R * bool) * unit :=
  ((6, 1, done), e).

Definition toy_actor_critic (ac : unit) (o : R) : (unit * R * R) * unit :=
  ((tt, 0, o), ac).

Definition toy_start (steps : nat) : LoopState R unit unit unit :=
  start 0 tt toy_reset steps (99 / 100) (97 / 100) tt tt.

(** ** Concrete buffers *)

(** Capacity three, filled with rewards [1,1,1], discount factor one. *)
Definition three_ones : VPGBuffer unit unit :=
  {| obs_buf := [tt; tt; tt]; act_buf := [tt; tt; tt];
     adv_buf := [Xreal 0; Xreal 0; Xreal 0];
     rew_buf := [1; 1; 1]; ret_buf := [0; 0; 0];
     val_buf := [0; 0; 0]; logp_buf := [0; 0; 0];
     gamma := 1; lam := 97 / 100;
     ptr := 3; path_start_idx := 0; max_size := 3 |}.

(** Capacity two; two idle steps (reward and value zero) closed as one
    path, so that both advantages are zero. *)
Definition flat2 : VPGBuffer unit unit :=
  {| obs_buf := [tt; tt]; act_buf := [tt; tt];
     adv_buf := [Xreal 0; Xreal 0];
     rew_buf := [0; 0]; ret_buf := [0; 0];
     val_buf := [0; 0]; logp_buf := [0; 0];
     gamma := 99 / 100; lam := 97 / 100;
     ptr := 2; path_start_idx := 2; max_size := 2 |}.

(** Two workers with full buffers of capacity two. *)
Definition worker (a0 a1 : R) : VPGBuffer unit unit :=
  {| obs_buf := [tt; tt]; act_buf := [tt; tt];
     adv_buf := [Xreal a0; Xreal a1];
     rew_buf := [0; 0]; ret_buf := [0; 0];
     val_buf := [0; 0]; logp_buf := [0; 0];
     gamma := 99 / 100; lam := 97 / 100;
     ptr := 2; path_start_idx := 2; max_size := 2 |}.

(** Capacity two, one step stored (reward and value zero), path open. *)
Definition one_step : VPGBuffer unit unit :=
  {| obs_buf := [tt; tt]; act_buf := [tt; tt];
     adv_buf := [Xreal 0; Xreal 0];
     rew_buf := [0; 0]; ret_buf := [0; 0];
     val_buf := [0; 0]; logp_buf := [0; 0];
     gamma := 0.99; lam := 0.95;
     ptr := 1; path_start_idx := 0; max_size := 2 |}.

(** Capacity three, full, one open path; [g] and [l] are its [gamma] and
    [lam]. *)
Definition segment3 (g l : R) : VPGBuffer unit unit :=
  {| obs_buf := [tt; tt; tt]; act_buf := [tt; tt; tt];
     adv_buf := [Xreal 0; Xreal 0; Xreal 0];
     rew_buf := [1; 2; 3]; ret_buf := [0; 0; 0];
     val_buf := [4; 5; 6]; logp_buf := [0; 0; 0];
     gamma := g; lam := l;
     ptr := 3; path_start_idx := 0; max_size := 3 |}.

(** Whether a timestep closed its path: the test
    [terminal or (t == local_steps_per_epoch - 1)]. *)
Definition closes (ts : Timestep) : bool :=
  ts_env_done ts || ts_cut_by_len ts || ts_cut_by_epoch ts.

(** The open path of the buffer has [ep_len] steps, fewer than
    [max_ep_len]. *)
Definition open_path_ok {Obs Act Env AC} (max_ep_len : Z)
    (s : LoopState Obs Act Env AC) : Prop :=
  Z.of_nat (ptr (st_buf s) - path_start_idx (st_buf s)) = st_ep_len s /\
  (0 <= st_ep_len s < max_ep_len)%Z.

(** The episode returns a run logs in [all_ep_ret], read off its trace:
    [acc] is [ep_ret] before the first timestep.  A path that [done] or the
    step limit ends logs the rewards summed since the last reset; a path
    only the end of the epoch cuts logs nothing. *)
Fixpoint episode_returns (acc : R) (tss : list Timestep) : list R :=
  match tss with
  | [] => []
  | ts :: rest =>
      let ep_ret := acc + ts_env_rew ts in
      if ts_env_done ts || ts_cut_by_len ts then
        ep_ret :: episode_returns 0 rest
      else if ts_cut_by_epoch ts then episode_returns 0 rest
      else episode_returns ep_ret rest
  end.

(** ** core.py: combined_shape *)

(** The [shape] argument: [None], a scalar, or a tuple of dimensions. *)
Inductive shape_arg : Type :=
| ShapeNone
| ShapeScalar (n : nat)
| ShapeTuple (dims : list nat).

Definition combined_shape (length : nat) (shape : shape_arg) : list nat :=
  match shape with
  | ShapeNone => [length]
  | ShapeScalar n => [length; n]
  | ShapeTuple dims => length :: dims
  end.

(** Number of entries of an array of the given shape ([np.zeros(shape).size]). *)
Definition entries (dims : list nat) : nat := fold_right Nat.mul 1%nat dims.

(** Number of entries of one slot described by a [shape] argument. *)
Definition slot_entries (shape : shape_arg) : nat :=
  match shape with
  | ShapeNone => 1%nat
  | ShapeScalar n => n
  | ShapeTuple dims => entries dims
  end.

(** ** core.py: gaussian_likelihood *)

Definition EPS : R := 1e-8.

(** [tf.reduce_sum] over one row. *)
Definition reduce_sum (row : list R) : R := fold_right Rplus 0 row.

(** Element-wise operation on three arrays of one shape. *)
Fixpoint map3 {A B C D} (f : A -> B -> C -> D)
    (x : list A) (y : list B) (z : list C) : list D :=
  match x, y, z with
  | a :: x', b :: y', c :: z' => f a b c :: map3 f x' y' z'
  | _, _, _ => []
  end.

(** One entry of [pre_sum]. *)
Definition pre_sum (x mu log_std : R) : R :=
  -0.5 * (((x - mu) / (exp log_std + EPS)) ^ 2 + 2 * log_std + ln (2 * PI)).

(** [x] and [mu] hold one row per batch element; [log_std] is one row,
    broadcast over the batch.  The sum runs over [axis=1]. *)
Definition gaussian_likelihood (x mu : list (list R)) (log_std : list R)
  : list R :=
  Np.map2 (fun xr mur => reduce_sum (map3 pre_sum xr mur log_std)) x mu.

(** ** core.py: make_mlp_model *)

(** A [tf.keras.layers.Dense] as [make_mlp_model] configures it. *)
Record Dense : Type := mkDense {
  units : nat;
  activation : option String.string;
  input_shape : option nat
}.

(** The layers added to the [Sequential] model, in order.  [sizes[0]] on an
    empty list is Python's [IndexError]. *)
Definition make_mlp_model (input : nat) (sizes : list nat)
    (act output_act : option String.string) : result (list Dense) :=
  first <- or_raise IndexError (nth_error sizes 0) ;;
  let mlp := [mkDense first act (Some input)] in
  let mlp :=
    if (2 <? length sizes)%nat then
      mlp ++ map (fun size => mkDense size act None)
                 (Np.init_part (Np.tail_part sizes))
    else mlp in
  final <- or_raise IndexError (nth_error sizes (length sizes - 1)) ;;
  Ok (mlp ++ [mkDense final output_act None]).

(** ** Actor-critics *)

(** What [__init__] tells apart about [action_space]: a [Box], with the
    action [action_space.sample()] returns; a [Discrete], with its [n];
    anything else, [None] included. *)
Inductive action_space : Type :=
| Box (sample : list R)
| Discrete (n : nat)
| OtherSpace.

Inductive policy_kind : Type :=
| mlp_gaussian_policy_kind
| mlp_categorical_policy_kind.

(** The attributes [__init__] sets; [None] is an attribute left unset. *)
Record ActorCritic : Type := mkActorCritic {
  pi_mlp : option (list Dense);
  policy : option policy_kind;
  log_std : option (list R);
  ac_action_space : option action_space;
  v_mlp : list Dense
}.

(** [ActorCritic.__init__] *)
Definition ActorCritic_init (obs_dim : nat) (hidden_sizes : list nat)
    (act output_act : option String.string) (space : action_space)
  : result ActorCritic :=
  match space with
  | Box sample =>
      let act_dim := length sample in
      pi <- make_mlp_model obs_dim (hidden_sizes ++ [act_dim]) act output_act ;;
      v <- make_mlp_model obs_dim (hidden_sizes ++ [1%nat]) act None ;;
      Ok {| pi_mlp := Some pi;
            policy := Some mlp_gaussian_policy_kind;
            log_std := Some (map (Rmult (-0.5)) (repeat 1 act_dim));
            ac_action_space := None;
            v_mlp := v |}
  | Discrete n =>
      let act_dim := n in
      pi <- make_mlp_model obs_dim (hidden_sizes ++ [act_dim]) act None ;;
      v <- make_mlp_model obs_dim (hidden_sizes ++ [1%nat]) act None ;;
      Ok {| pi_mlp := Some pi;
            policy := Some mlp_categorical_policy_kind;
            log_std := None;
            ac_action_space := Some space;
            v_mlp := v |}
  | OtherSpace =>
      v <- make_mlp_model obs_dim (hidden_sizes ++ [1%nat]) act None ;;
      Ok {| pi_mlp := None;
            policy := None;
            log_std := None;
            ac_action_space := None;
            v_mlp := v |}
  end.

(** [tf.nn.log_softmax] of one row. *)
Definition log_softmax (logits : list R) : list R :=
  map (fun l => l - ln (reduce_sum (map exp logits))) logits.

(** [tf.one_hot(index, depth)]: an index outside [0, depth) gives the zero
    row. *)
Definition one_hot (index : Z) (depth : nat) : list R :=
  map (fun k => if (Z.of_nat k =? index)%Z then 1 else 0) (seq 0 depth).

(** [ActorCritic._mlp_categorical_policy], from the logits [pi_mlp]
    returned on.  [sample] is what [tfd.Categorical(logits).sample()] drew,
    one index per row; [action], when given, holds the indices
    [tf.cast(action, tf.int32)] yields. *)
Definition mlp_categorical_policy (act_dim : nat) (logits : list (list R))
    (sample : list Z) (action : option (list Z)) : list Z * list R :=
  let logp_all := map log_softmax logits in
  let pi := sample in
  let logp :=
    match action with
    | Some action =>
        Np.map2 (fun a row => reduce_sum (Np.map2 Rmult (one_hot a act_dim) row))
                action logp_all
    | None =>
        Np.map2 (fun a row => reduce_sum (Np.map2 Rmult (one_hot a act_dim) row))
                pi logp_all
    end in
  (pi, logp).

(** [ActorCritic._mlp_gaussian_policy], from the means [pi_mlp] returned.
    [noise] is what [tf.random.normal(tf.shape(mu))] drew. *)
Definition mlp_gaussian_policy (log_std : list R) (mu noise : list (list R))
    (action : option (list (list R))) : list (list R) * list R :=
  let std := map exp log_std in
  let pi :=
    Np.map2 (fun m n => Np.map2 Rplus m (Np.map2 Rmult n std)) mu noise in
  let logp :=
    match action with
    | Some action => gaussian_likelihood action mu log_std
    | None => gaussian_likelihood pi mu log_std
    end in
  (pi, logp).

(** * Properties *)

(** ** The discounted cumulative sum *)

Lemma lfilter_from_running d xh yh x :
  lfilter_from [1] [1; - d] xh yh x = running d (hd 0 yh) x.
Proof.
  revert xh yh; induction x as [|xn x IH]; intros xh yh; simpl; [reflexivity|].
  assert (E : (dot [1] (xn :: xh) - dot [- d] yh) / 1 = xn + d * hd 0 yh).
  { unfold dot; destruct yh as [|y yh]; simpl; field. }
  rewrite E, IH; reflexivity.
Qed.

Lemma running_length d y0 x : length (running d y0 x) = length x.
Proof. revert y0; induction x; intros; simpl; auto. Qed.

Lemma last_default_irrel {A} (l : list A) (a d1 d2 : A) :
  last (a :: l) d1 = last (a :: l) d2.
Proof.
  revert a; induction l as [|b l IH]; intros a; [reflexivity|].
  change (last (b :: l) d1 = last (b :: l) d2). apply IH.
Qed.

Lemma running_app d y0 x1 x2 :
  running d y0 (x1 ++ x2) =
  running d y0 x1 ++ running d (last (running d y0 x1) y0) x2.
Proof.
  revert y0; induction x1 as [|a x1 IH]; intros y0; simpl; [reflexivity|].
  f_equal. rewrite IH. f_equal. f_equal.
  destruct (running d (a + d * y0) x1) eqn:E; [reflexivity|].
  apply last_default_irrel.
Qed.

Lemma hd_rev {A} (l : list A) (d : A) : hd d (rev l) = last l d.
Proof.
  induction l as [|a l IH]; [reflexivity|].
  simpl rev. destruct l as [|b l]; [reflexivity|].
  change (last (a :: b :: l) d) with (last (b :: l) d).
  rewrite <- IH. simpl rev.
  destruct (rev l ++ [b]) eqn:E; [|reflexivity].
  destruct (rev l); discriminate.
Qed.

Lemma discount_cumsum_nil discount : discount_cumsum [] discount = [].
Proof. reflexivity. Qed.

Lemma discount_cumsum_cons x0 x discount :
  discount_cumsum (x0 :: x) discount =
  (x0 + discount * hd 0 (discount_cumsum x discount)) :: discount_cumsum x discount.
Proof.
  unfold discount_cumsum, lfilter. rewrite !lfilter_from_running. simpl rev.
  rewrite running_app, rev_app_distr. simpl hd.
  simpl. rewrite hd_rev. reflexivity.
Qed.

Lemma discount_cumsum_length x discount :
  length (discount_cumsum x discount) = length x.
Proof.
  unfold discount_cumsum, lfilter.
  rewrite length_rev, lfilter_from_running, running_length, length_rev.
  reflexivity.
Qed.

Lemma power_sum_shift discount k x :
  power_sum discount (S k) x = discount * power_sum discount k x.
Proof.
  revert k; induction x as [|x0 x IH]; intros k; simpl; [ring|].
  rewrite IH. simpl. ring.
Qed.

Lemma discount_cumsum_hd x discount :
  hd 0 (discount_cumsum x discount) = power_sum discount 0 x.
Proof.
  induction x as [|x0 x IH]; [reflexivity|].
  rewrite discount_cumsum_cons. simpl.
  rewrite IH, power_sum_shift. ring.
Qed.

Lemma hd_nth {A} (l : list A) (d : A) : hd d l = nth 0 l d.
Proof. destruct l; reflexivity. Qed.

Lemma discount_cumsum_skipn x discount i :
  skipn i (discount_cumsum x discount) = discount_cumsum (skipn i x) discount.
Proof.
  revert i; induction x as [|x0 x IH]; intros [|i]; try reflexivity.
  rewrite discount_cumsum_cons. simpl. apply IH.
Qed.

Lemma nth_skipn_0 {A} (l : list A) (i : nat) (d : A) :
  nth i l d = hd d (skipn i l).
Proof.
  revert i; induction l as [|a l IH]; intros [|i]; try reflexivity.
  simpl. apply IH.
Qed.

Lemma discount_cumsum_nth x discount i :
  nth i (discount_cumsum x discount) 0 = power_sum discount 0 (skipn i x).
Proof.
  rewrite nth_skipn_0, discount_cumsum_skipn. apply discount_cumsum_hd.
Qed.

Lemma discount_cumsum_step x discount i :
  (i < length x)%nat ->
  nth i (discount_cumsum x discount) 0 =
  nth i x 0 + discount * nth (S i) (discount_cumsum x discount) 0.
Proof.
  revert i; induction x as [|x0 x IH]; intros i Hi; simpl in Hi; [lia|].
  rewrite discount_cumsum_cons. destruct i as [|i].
  - simpl. rewrite hd_nth. reflexivity.
  - change (nth i (discount_cumsum x discount) 0 =
            nth i x 0 + discount * nth (S i) (discount_cumsum x discount) 0).
    apply IH. lia.
Qed.

(** C3: for a discount factor in (0,1] and an input [x] of length N,
    [discount_cumsum] returns [y] of length N with [y[N-1] = x[N-1]] and
    [y[i] = x[i] + discount * y[i+1]] for [i < N-1]; equivalently
    [y[i]] is the sum over [j >= i] of [discount^(j-i) * x[j]].  A single
    element comes back unchanged and the empty sequence comes back empty. *)
Theorem discount_cumsum_recurrence (discount : R) (x : list R) :
  0 < discount <= 1 ->
  let y := discount_cumsum x discount in
  let N := length x in
  length y = N /\
  ((0 < N)%nat -> nth (N - 1) y 0 = nth (N - 1) x 0) /\
  (forall i, (i + 1 < N)%nat -> nth i y 0 = nth i x 0 + discount * nth (i + 1) y 0) /\
  (forall i, (i < N)%nat -> nth i y 0 = power_sum discount 0 (skipn i x)) /\
  (forall x0, discount_cumsum [x0] discount = [x0]) /\
  discount_cumsum [] discount = [].
Proof.
  intros _ y N. subst y N.
  split; [apply discount_cumsum_length|].
  split.
  { intros HN. rewrite discount_cumsum_step by lia.
    rewrite (nth_overflow (discount_cumsum x discount)).
    - ring.
    - rewrite discount_cumsum_length. lia. }
  split.
  { intros i Hi. replace (i + 1)%nat with (S i) by lia.
    apply discount_cumsum_step. lia. }
  split.
  { intros i _. apply discount_cumsum_nth. }
  split; [|reflexivity].
  intros x0. rewrite discount_cumsum_cons. simpl. f_equal. ring.
Qed.

Lemma discount_cumsum_recurrence_witness :
  0 < 1 / 2 <= 1 /\
  nth 0 (discount_cumsum [4; 2; 8] (1 / 2)) 0 =
  nth 0 [4; 2; 8] 0 + 1 / 2 * nth 1 (discount_cumsum [4; 2; 8] (1 / 2)) 0.
Proof.
  assert (H : 0 < 1 / 2 <= 1) by lra.
  split; [exact H|].
  exact (proj1 (proj2 (proj2 (discount_cumsum_recurrence (1 / 2) [4; 2; 8] H)))
           0%nat ltac:(simpl; lia)).
Defined.

(** ** Arrays: slices and item assignment *)

Lemma slice_inside {A} (l : list A) p q :
  (p <= q <= length l)%nat ->
  Np.slice l p q = firstn (q - p) (skipn p l).
Proof.
  intros H. unfold Np.slice, Np.slice_len, Np.slice_lo.
  rewrite !Nat.min_l by lia. reflexivity.
Qed.

Lemma slice_length {A} (l : list A) p q :
  length (Np.slice l p q) = Np.slice_len p q (length l).
Proof.
  unfold Np.slice, Np.slice_len, Np.slice_lo.
  rewrite length_firstn, length_skipn. lia.
Qed.

Lemma slice_empty {A} (l : list A) p : Np.slice l p p = [].
Proof.
  unfold Np.slice, Np.slice_len. rewrite Nat.sub_diag. reflexivity.
Qed.

Lemma set_slice_inside {A} (l v : list A) p q :
  (p <= q <= length l)%nat -> length v = (q - p)%nat ->
  Np.set_slice l p q v = Some (firstn p l ++ v ++ skipn q l).
Proof.
  intros H Hv. unfold Np.set_slice, Np.slice_len, Np.slice_lo.
  rewrite !Nat.min_l by lia. rewrite Hv, Nat.eqb_refl.
  replace (p + (q - p))%nat with q by lia. reflexivity.
Qed.

Lemma set_slice_empty {A} (l : list A) p :
  Np.set_slice l p p [] = Some l.
Proof.
  unfold Np.set_slice, Np.slice_len. rewrite Nat.sub_diag. simpl.
  rewrite Nat.add_0_r, firstn_skipn. reflexivity.
Qed.

Lemma patched_length {A} (l v : list A) p q :
  (p <= q <= length l)%nat -> length v = (q - p)%nat ->
  length (firstn p l ++ v ++ skipn q l) = length l.
Proof.
  intros H Hv. rewrite !length_app, length_firstn, length_skipn. lia.
Qed.

Lemma patched_slice {A} (l v : list A) p q :
  (p <= q <= length l)%nat -> length v = (q - p)%nat ->
  Np.slice (firstn p l ++ v ++ skipn q l) p q = v.
Proof.
  intros H Hv. rewrite slice_inside by (rewrite patched_length; lia).
  assert (Hp : length (firstn p l) = p) by (rewrite length_firstn; lia).
  rewrite skipn_app, Hp, Nat.sub_diag. simpl skipn at 2.
  rewrite skipn_all2 by lia. simpl.
  rewrite firstn_app, <- Hv, Nat.sub_diag, firstn_all. simpl.
  apply app_nil_r.
Qed.

Lemma patched_before {A} (l v : list A) p q :
  (p <= q <= length l)%nat ->
  firstn p (firstn p l ++ v ++ skipn q l) = firstn p l.
Proof.
  intros H.
  assert (Hp : length (firstn p l) = p) by (rewrite length_firstn; lia).
  rewrite firstn_app, Hp, Nat.sub_diag. simpl.
  rewrite app_nil_r. apply firstn_all2. lia.
Qed.

Lemma patched_after {A} (l v : list A) p q :
  (p <= q <= length l)%nat -> length v = (q - p)%nat ->
  skipn q (firstn p l ++ v ++ skipn q l) = skipn q l.
Proof.
  intros H Hv.
  assert (Hp : length (firstn p l) = p) by (rewrite length_firstn; lia).
  rewrite skipn_app, Hp. rewrite skipn_all2 by lia. simpl.
  rewrite skipn_app, Hv. rewrite skipn_all2 by lia. simpl.
  replace (q - p - (q - p))%nat with 0%nat by lia. reflexivity.
Qed.

Lemma set_item_inside {A} (l : list A) i v :
  (i < length l)%nat ->
  exists l', Np.set_item l i v = Some l' /\ length l' = length l.
Proof.
  revert i; induction l as [|a l IH]; intros i Hi; simpl in Hi; [lia|].
  destruct i as [|i]; simpl.
  - eexists; split; reflexivity.
  - destruct (IH i) as [l' [E L]]; [lia|].
    rewrite E. eexists; split; [reflexivity|]. simpl. lia.
Qed.

Lemma map2_length {A B C} (f : A -> B -> C) x y :
  length (Np.map2 f x y) = Nat.min (length x) (length y).
Proof.
  revert y; induction x as [|a x IH]; intros [|b y]; simpl; auto.
Qed.

Lemma map2_nth {A B C} (f : A -> B -> C) x y i da db dc :
  (i < length x)%nat -> (i < length y)%nat ->
  nth i (Np.map2 f x y) dc = f (nth i x da) (nth i y db).
Proof.
  revert y i; induction x as [|a x IH]; intros [|b y] [|i] Hx Hy;
    simpl in *; try lia; auto.
  apply IH; lia.
Qed.

(** ** The buffer *)

Section BufferFacts.

Context {Obs Act : Type}.
Implicit Types b : VPGBuffer Obs Act.

Lemma init_shaped (obs_zero : Obs) (act_zero : Act) size g l :
  shaped (init obs_zero act_zero size g l).
Proof. unfold shaped; simpl. rewrite !repeat_length. tauto. Qed.

Lemma store_inside b obs act rew val logp :
  shaped b -> (ptr b < max_size b)%nat ->
  exists b', store b obs act rew val logp = Ok b' /\
    ptr b' = (ptr b + 1)%nat /\
    path_start_idx b' = path_start_idx b /\
    max_size b' = max_size b /\
    gamma b' = gamma b /\ lam b' = lam b /\
    shaped b'.
Proof.
  intros (Ho & Ha & Hadv & Hr & Hret & Hv & Hl) Hp.
  unfold store. apply Nat.ltb_lt in Hp as Hp'. rewrite Hp'.
  destruct (set_item_inside (obs_buf b) (ptr b) obs) as [o' [Eo Lo]]; [lia|].
  destruct (set_item_inside (act_buf b) (ptr b) act) as [a' [Ea La]]; [lia|].
  destruct (set_item_inside (rew_buf b) (ptr b) rew) as [r' [Er Lr]]; [lia|].
  destruct (set_item_inside (val_buf b) (ptr b) val) as [v' [Ev Lv]]; [lia|].
  destruct (set_item_inside (logp_buf b) (ptr b) logp) as [l' [El Ll]]; [lia|].
  rewrite Eo, Ea, Er, Ev, El. simpl.
  eexists; split; [reflexivity|]. simpl.
  unfold shaped; simpl. repeat split; congruence.
Qed.

Lemma store_at_capacity b obs act rew val logp :
  (max_size b <= ptr b)%nat -> store b obs act rew val logp = Raise BufferFull.
Proof.
  intros H. unfold store.
  destruct (ptr b <? max_size b) eqn:E; [|reflexivity].
  apply Nat.ltb_lt in E. lia.
Qed.

Lemma get_at_capacity peers b :
  ptr b = max_size b ->
  exists b' batch, get peers b = Ok (b', batch) /\
    ptr b' = 0%nat /\ path_start_idx b' = 0%nat /\
    max_size b' = max_size b /\
    gamma b' = gamma b /\ lam b' = lam b /\
    (shaped b -> shaped b').
Proof.
  intros H. unfold get. rewrite H, Nat.eqb_refl.
  destruct (mpi_statistics_scalar peers (adv_buf b)) as [m s].
  do 2 eexists; split; [reflexivity|]. simpl.
  do 5 (split; [reflexivity|]).
  unfold shaped, normalize; simpl. rewrite length_map. tauto.
Qed.

Lemma get_below_capacity peers b :
  ptr b <> max_size b -> get peers b = Raise BufferNotFull.
Proof.
  intros H. unfold get.
  destruct (ptr b =? max_size b) eqn:E; [|reflexivity].
  apply Nat.eqb_eq in E. contradiction.
Qed.

Lemma path_deltas_length b last_val :
  length (rew_buf b) = length (val_buf b) ->
  length (path_deltas b last_val) =
  Np.slice_len (path_start_idx b) (ptr b) (length (rew_buf b)).
Proof.
  intros E. unfold path_deltas, path_rews, path_vals, Np.append,
    Np.init_part, Np.tail_part.
  rewrite !removelast_last, !map2_length, length_map.
  assert (T : forall (l : list R) v, length (tl (l ++ [v])) = length l).
  { intros [|a l] v; simpl; [reflexivity|]. rewrite length_app; simpl; lia. }
  rewrite T, !slice_length, <- E. lia.
Qed.

Lemma path_deltas_nth b last_val i :
  (i < length (Np.slice (rew_buf b) (path_start_idx b) (ptr b)))%nat ->
  (i < length (Np.slice (val_buf b) (path_start_idx b) (ptr b)))%nat ->
  nth i (path_deltas b last_val) 0 =
  nth i (path_rews b last_val) 0
  + gamma b * nth (S i) (path_vals b last_val) 0
  - nth i (path_vals b last_val) 0.
Proof.
  intros Hr Hv. unfold path_deltas, path_rews, path_vals, Np.append,
    Np.init_part, Np.tail_part.
  rewrite !removelast_last.
  set (r := Np.slice (rew_buf b) _ _) in *.
  set (v := Np.slice (val_buf b) _ _) in *.
  assert (T : length (tl (v ++ [last_val])) = length v).
  { destruct v; simpl; [reflexivity|]. rewrite length_app; simpl; lia. }
  clearbody r v.
  rewrite (map2_nth Rminus _ _ i 0 0);
    [|rewrite map2_length, length_map, T; lia|lia].
  rewrite (map2_nth Rplus _ _ i 0 0); [|lia|rewrite length_map, T; lia].
  rewrite (app_nth1 r [last_val] 0 Hr), (app_nth1 v [last_val] 0 Hv).
  rewrite (nth_indep (map (Rmult (gamma b)) _) 0 (Rmult (gamma b) 0))
    by (rewrite length_map, T; lia).
  rewrite map_nth.
  replace (nth i (tl (v ++ [last_val])) 0) with (nth (S i) (v ++ [last_val]) 0).
  - reflexivity.
  - destruct (v ++ [last_val]); [destruct i|]; reflexivity.
Qed.

Lemma finish_path_inside b last_val :
  shaped b -> cursors_ok b ->
  finish_path b last_val =
  Ok {| obs_buf := obs_buf b;
        act_buf := act_buf b;
        adv_buf :=
          firstn (path_start_idx b) (adv_buf b)
          ++ map Xreal (discount_cumsum (path_deltas b last_val) (gamma b * lam b))
          ++ skipn (ptr b) (adv_buf b);
        rew_buf := rew_buf b;
        ret_buf :=
          firstn (path_start_idx b) (ret_buf b)
          ++ Np.init_part (discount_cumsum (path_rews b last_val) (gamma b))
          ++ skipn (ptr b) (ret_buf b);
        val_buf := val_buf b;
        logp_buf := logp_buf b;
        gamma := gamma b;
        lam := lam b;
        ptr := ptr b;
        path_start_idx := ptr b;
        max_size := max_size b |}.
Proof.
  intros (Ho & Ha & Hadv & Hr & Hret & Hv & Hl) ((_ & Hpq) & Hq).
  assert (Ld : length (path_deltas b last_val) = (ptr b - path_start_idx b)%nat).
  { rewrite path_deltas_length by congruence.
    unfold Np.slice_len. rewrite !Nat.min_l by lia. reflexivity. }
  assert (Lr : length (Np.init_part (discount_cumsum (path_rews b last_val) (gamma b)))
               = (ptr b - path_start_idx b)%nat).
  { unfold Np.init_part.
    rewrite removelast_firstn_len, length_firstn, discount_cumsum_length.
    unfold path_rews, Np.append. rewrite length_app, slice_length. simpl.
    unfold Np.slice_len. rewrite !Nat.min_l by lia. lia. }
  unfold finish_path.
  rewrite set_slice_inside;
    [|lia|rewrite length_map, discount_cumsum_length; exact Ld].
  simpl. rewrite set_slice_inside; [|lia|exact Lr].
  reflexivity.
Qed.

Lemma store_cursors b b' obs act rew val logp :
  store b obs act rew val logp = Ok b' ->
  ptr b' = (ptr b + 1)%nat /\ (ptr b < max_size b)%nat /\
  path_start_idx b' = path_start_idx b /\ max_size b' = max_size b.
Proof.
  unfold store. destruct (ptr b <? max_size b) eqn:E; [|discriminate].
  apply Nat.ltb_lt in E.
  destruct (Np.set_item (obs_buf b) _ _); [|discriminate].
  destruct (Np.set_item (act_buf b) _ _); [|discriminate].
  destruct (Np.set_item (rew_buf b) _ _); [|discriminate].
  destruct (Np.set_item (val_buf b) _ _); [|discriminate].
  destruct (Np.set_item (logp_buf b) _ _); [|discriminate].
  simpl. intros H; injection H as <-. simpl. auto.
Qed.

Lemma finish_path_cursors b b' last_val :
  finish_path b last_val = Ok b' ->
  ptr b' = ptr b /\ path_start_idx b' = ptr b /\ max_size b' = max_size b.
Proof.
  unfold finish_path.
  destruct (Np.set_slice (adv_buf b) _ _ _); [|discriminate].
  destruct (Np.set_slice (ret_buf b) _ _ _); [|discriminate].
  simpl. intros H; injection H as <-. simpl. auto.
Qed.

Lemma get_cursors peers b b' batch :
  get peers b = Ok (b', batch) ->
  ptr b' = 0%nat /\ path_start_idx b' = 0%nat /\
  max_size b' = max_size b /\ ptr b = max_size b.
Proof.
  unfold get. destruct (ptr b =? max_size b) eqn:E; [|discriminate].
  apply Nat.eqb_eq in E.
  destruct (mpi_statistics_scalar peers (adv_buf b)) as [m s].
  intros H; injection H as <- _. simpl. auto.
Qed.

Lemma finish_path_shaped b last_val :
  shaped b -> cursors_ok b ->
  exists b', finish_path b last_val = Ok b' /\ shaped b' /\ cursors_ok b' /\
    ptr b' = ptr b /\ max_size b' = max_size b /\
    gamma b' = gamma b /\ lam b' = lam b.
Proof.
  intros Hs Hc. rewrite finish_path_inside by assumption.
  eexists; split; [reflexivity|].
  destruct Hs as (Ho & Ha & Hadv & Hr & Hret & Hv & Hl).
  destruct Hc as ((_ & Hpq) & Hq).
  assert (Ld : length (path_deltas b last_val) = (ptr b - path_start_idx b)%nat).
  { rewrite path_deltas_length by congruence.
    unfold Np.slice_len. rewrite !Nat.min_l by lia. reflexivity. }
  assert (Lr : length (Np.init_part (discount_cumsum (path_rews b last_val) (gamma b)))
               = (ptr b - path_start_idx b)%nat).
  { unfold Np.init_part.
    rewrite removelast_firstn_len, length_firstn, discount_cumsum_length.
    unfold path_rews, Np.append. rewrite length_app, slice_length. simpl.
    unfold Np.slice_len. rewrite !Nat.min_l by lia. lia. }
  split; [|split; [unfold cursors_ok; simpl; lia|simpl; auto]].
  unfold shaped; simpl.
  rewrite !patched_length;
    [tauto|lia|exact Lr|lia|rewrite length_map, discount_cumsum_length; exact Ld].
Qed.

Lemma run_calls_inside b cs :
  shaped b -> cursors_ok b ->
  (ptr b + count_stores cs <= max_size b)%nat ->
  exists b', run_calls b cs = Ok b' /\ shaped b' /\ cursors_ok b' /\
    ptr b' = (ptr b + count_stores cs)%nat /\ max_size b' = max_size b.
Proof.
  revert b; induction cs as [|c cs IH]; intros b Hs Hc Hn.
  - exists b. unfold count_stores; simpl.
    split; [reflexivity|]. do 2 (split; [assumption|]). split; lia.
  - destruct c as [o a r v lp|lv]; unfold count_stores in *; simpl in *.
    + destruct (store_inside b o a r v lp Hs) as (b1 & E & Hp & Hpsi & Hm & _ & _ & Hs1);
        [lia|].
      rewrite E; simpl.
      destruct (IH b1) as (b2 & E2 & Hs2 & Hc2 & Hp2 & Hm2); auto.
      * destruct Hc as ((_ & Hpq) & Hq). unfold cursors_ok. lia.
      * lia.
      * exists b2. split; [assumption|]. do 2 (split; [assumption|]). split; lia.
    + destruct (finish_path_shaped b lv Hs Hc) as (b1 & E & Hs1 & Hc1 & Hp & Hm & _).
      rewrite E; simpl.
      destruct (IH b1) as (b2 & E2 & Hs2 & Hc2 & Hp2 & Hm2); auto.
      * lia.
      * exists b2. split; [assumption|]. do 2 (split; [assumption|]). split; lia.
Qed.

End BufferFacts.

(** ** Claims about the buffer *)

Section BufferClaims.

Context {Obs Act : Type}.
Implicit Types b : VPGBuffer Obs Act.

(** C9: [finish_path] on an empty segment ([path_start_idx = ptr]) does
    not fail and leaves the buffer as it was: no advantage or return slot
    is written, and the path marker keeps its value. *)
Theorem finish_path_empty_segment b last_val :
  path_start_idx b = ptr b -> finish_path b last_val = Ok b.
Proof.
  intros E. unfold finish_path, path_deltas, path_rews, path_vals.
  rewrite E, !slice_empty. simpl.
  rewrite !set_slice_empty. simpl. destruct b; simpl in *. subst. reflexivity.
Qed.

(** C2: on an open segment [path_start_idx, ptr) with rewards [r] and
    values [v], [finish_path last_val] extends both with [last_val], forms
    [delta[i] = r[i] + gamma * v[i+1] - v[i]] over the extended sequences,
    writes [discount_cumsum delta (gamma * lam)] to the advantage slots of
    the segment and [discount_cumsum] of the extended rewards, without its
    last element, to the return slots, and moves [path_start_idx] to [ptr];
    nothing else changes.  With rewards [1,1,1], [gamma = 1] and
    [last_val = 0] the returns written are [3,2,1]. *)
Theorem finish_path_gae b last_val :
  shaped b -> cursors_ok b ->
  let p := path_start_idx b in
  let q := ptr b in
  let rews := Np.slice (rew_buf b) p q ++ [last_val] in
  let vals := Np.slice (val_buf b) p q ++ [last_val] in
  exists b' deltas,
    finish_path b last_val = Ok b' /\
    length deltas = (q - p)%nat /\
    (forall i, (i < q - p)%nat ->
       nth i deltas 0 = nth i rews 0 + gamma b * nth (i + 1) vals 0 - nth i vals 0) /\
    Np.slice (adv_buf b') p q = map Xreal (discount_cumsum deltas (gamma b * lam b)) /\
    Np.slice (ret_buf b') p q = removelast (discount_cumsum rews (gamma b)) /\
    path_start_idx b' = q /\
    ptr b' = q /\ max_size b' = max_size b /\
    gamma b' = gamma b /\ lam b' = lam b /\
    obs_buf b' = obs_buf b /\ act_buf b' = act_buf b /\
    rew_buf b' = rew_buf b /\ val_buf b' = val_buf b /\
    logp_buf b' = logp_buf b /\
    firstn p (adv_buf b') = firstn p (adv_buf b) /\
    skipn q (adv_buf b') = skipn q (adv_buf b) /\
    firstn p (ret_buf b') = firstn p (ret_buf b) /\
    skipn q (ret_buf b') = skipn q (ret_buf b) /\
    (Np.slice (rew_buf b) p q = [1; 1; 1] -> gamma b = 1 -> last_val = 0 ->
     Np.slice (ret_buf b') p q = [3; 2; 1]).
Proof.
  intros Hs Hc p q rews vals.
  pose proof Hs as (Ho & Ha & Hadv & Hr & Hret & Hv & Hl).
  pose proof Hc as ((_ & Hpq) & Hq). fold p q in Hpq, Hq.
  assert (Ld : length (path_deltas b last_val) = (q - p)%nat).
  { rewrite path_deltas_length by congruence.
    unfold Np.slice_len. rewrite !Nat.min_l by (subst p q; lia). reflexivity. }
  assert (Lr : length (removelast (discount_cumsum rews (gamma b))) = (q - p)%nat).
  { rewrite removelast_firstn_len, length_firstn, discount_cumsum_length.
    subst rews. rewrite length_app, slice_length. simpl.
    unfold Np.slice_len. rewrite !Nat.min_l by (subst p q; lia). lia. }
  assert (Lsr : length (Np.slice (rew_buf b) p q) = (q - p)%nat).
  { rewrite slice_length. unfold Np.slice_len.
    rewrite !Nat.min_l by (subst p q; lia). reflexivity. }
  assert (Lsv : length (Np.slice (val_buf b) p q) = (q - p)%nat).
  { rewrite slice_length. unfold Np.slice_len.
    rewrite !Nat.min_l by (subst p q; lia). reflexivity. }
  assert (Ret : Np.slice
            (firstn p (ret_buf b) ++ removelast (discount_cumsum rews (gamma b))
             ++ skipn q (ret_buf b)) p q
          = removelast (discount_cumsum rews (gamma b))).
  { apply patched_slice; [subst p q; lia|exact Lr]. }
  eexists. exists (path_deltas b last_val).
  split; [apply finish_path_inside; assumption|]. simpl.
  fold p q. change (path_rews b last_val) with rews. unfold Np.init_part.
  split; [exact Ld|].
  split.
  { intros i Hi. replace (i + 1)%nat with (S i) by lia.
    apply path_deltas_nth; fold p q; lia. }
  split.
  { apply patched_slice; [subst p q; lia|].
    rewrite length_map, discount_cumsum_length. exact Ld. }
  split; [exact Ret|].
  do 10 (split; [reflexivity|]).
  split; [apply patched_before; subst p q; lia|].
  split.
  { apply patched_after; [subst p q; lia|].
    rewrite length_map, discount_cumsum_length. exact Ld. }
  split; [apply patched_before; subst p q; lia|].
  split; [apply patched_after; [subst p q; lia|exact Lr]|].
  intros E1 Eg E0. rewrite Ret. subst rews. rewrite E1, Eg, E0.
  simpl app. rewrite !discount_cumsum_cons, discount_cumsum_nil. simpl.
  repeat (f_equal; try lra).
Qed.

(** C7: [0 <= path_start_idx <= ptr <= capacity] holds for a new buffer
    and is kept by every [store], [finish_path] and [get] that succeeds. *)
Theorem cursors_invariant :
  (forall (obs_zero : Obs) (act_zero : Act) size g l,
     cursors_ok (init obs_zero act_zero size g l)) /\
  (forall b b' obs act rew val logp,
     cursors_ok b -> store b obs act rew val logp = Ok b' -> cursors_ok b') /\
  (forall b b' last_val,
     cursors_ok b -> finish_path b last_val = Ok b' -> cursors_ok b') /\
  (forall b b' peers batch,
     cursors_ok b -> get peers b = Ok (b', batch) -> cursors_ok b').
Proof.
  unfold cursors_ok. split; [|split; [|split]].
  - intros obs_zero act_zero size g l. simpl. lia.
  - intros b b' obs act rew val logp Hb E.
    destruct (store_cursors _ _ _ _ _ _ _ E) as (Hp & Hlt & Hq & Hm). lia.
  - intros b b' last_val Hb E.
    destruct (finish_path_cursors _ _ _ E) as (Hp & Hq & Hm). lia.
  - intros b b' peers batch Hb E.
    destruct (get_cursors _ _ _ _ E) as (Hp & Hq & Hm & Hfull). lia.
Qed.

(** C5: in a buffer of capacity C, [store] succeeds exactly when fewer
    than C transitions are stored, and one more [store] after C of them
    fails with BufferFull; [get] succeeds exactly when C transitions are
    stored, and fails with BufferNotFull before that. *)
Theorem capacity_contract (obs_zero : Obs) (act_zero : Act) C g l cs :
  (count_stores cs <= C)%nat ->
  exists b,
    run_calls (init obs_zero act_zero C g l) cs = Ok b /\
    ptr b = count_stores cs /\ max_size b = C /\
    (forall obs act rew val logp,
       is_ok (store b obs act rew val logp) = true <-> (count_stores cs < C)%nat) /\
    (forall obs act rew val logp,
       count_stores cs = C -> store b obs act rew val logp = Raise BufferFull) /\
    (forall peers, is_ok (get peers b) = true <-> count_stores cs = C) /\
    (forall peers, (count_stores cs < C)%nat -> get peers b = Raise BufferNotFull).
Proof.
  intros Hn.
  destruct (run_calls_inside (init obs_zero act_zero C g l) cs)
    as (b & E & Hs & Hc & Hp & Hm).
  { apply init_shaped. }
  { unfold cursors_ok; simpl; lia. }
  { simpl; lia. }
  simpl in Hp, Hm. exists b.
  split; [exact E|]. split; [exact Hp|]. split; [exact Hm|].
  split.
  { intros obs act rew val logp. split.
    - intros H. destruct (store b obs act rew val logp) as [b'|e] eqn:Es;
        [|discriminate].
      apply store_cursors in Es. lia.
    - intros H.
      destruct (store_inside b obs act rew val logp Hs) as (b' & Es & _); [lia|].
      rewrite Es. reflexivity. }
  split.
  { intros obs act rew val logp H. apply store_at_capacity. lia. }
  split.
  { intros peers. split.
    - intros H. destruct (get peers b) as [[b' batch]|e] eqn:Eg; [|discriminate].
      apply get_cursors in Eg. lia.
    - intros H. destruct (get_at_capacity peers b) as (b' & batch & Eg & _); [lia|].
      rewrite Eg. reflexivity. }
  intros peers H. apply get_below_capacity. lia.
Qed.

(** C8: a [get] that succeeds sets [ptr] and [path_start_idx] to 0, and
    the buffer can be filled again: C further [store]s, with any
    [finish_path]s among them, succeed and the next [get] succeeds. *)
Theorem get_resets_and_reuses b peers :
  shaped b -> ptr b = max_size b ->
  exists b' batch,
    get peers b = Ok (b', batch) /\
    ptr b' = 0%nat /\ path_start_idx b' = 0%nat /\
    max_size b' = max_size b /\
    forall cs peers',
      count_stores cs = max_size b ->
      exists b2 b3 batch',
        run_calls b' cs = Ok b2 /\ get peers' b2 = Ok (b3, batch').
Proof.
  intros Hs Hp.
  destruct (get_at_capacity peers b Hp) as (b' & batch & Eg & Hp' & Hq' & Hm' & _ & _ & Hs').
  exists b', batch. do 4 (split; [assumption|]).
  intros cs peers' Hn.
  destruct (run_calls_inside b' cs) as (b2 & E2 & Hs2 & Hc2 & Hp2 & Hm2).
  { auto. }
  { unfold cursors_ok. lia. }
  { lia. }
  destruct (get_at_capacity peers' b2) as (b3 & batch' & Eg' & _); [lia|].
  exists b2, b3, batch'. split; assumption.
Qed.

End BufferClaims.

(** ** Division in the advantage normalization *)

Lemma xdiv_by_zero x : xdiv x (Xreal 0) = Xnan.
Proof.
  destruct x as [|a]; [reflexivity|]. simpl.
  destruct (Req_dec_T 0 0) as [_|N]; [reflexivity|]. contradiction N; reflexivity.
Qed.

Lemma xdiv_real a b : b <> 0 -> xdiv (Xreal a) (Xreal b) = Xreal (a / b).
Proof.
  intros N. simpl. destruct (Req_dec_T b 0) as [E|_]; [contradiction|reflexivity].
Qed.

Lemma xsqrt_real a : 0 <= a -> xsqrt (Xreal a) = Xreal (sqrt a).
Proof.
  intros N. simpl. destruct (Rlt_dec a 0) as [E|_]; [lra|reflexivity].
Qed.

Lemma normalize_zero_std m adv :
  normalize m (Xreal 0) adv = map (fun _ => Xnan) adv.
Proof.
  unfold normalize. apply map_ext. intros a. apply xdiv_by_zero.
Qed.

Section Normalization.

Context {Obs Act : Type}.
Implicit Types b : VPGBuffer Obs Act.

Lemma get_when_full b peers :
  ptr b = max_size b ->
  exists b' batch,
    get peers b = Ok (b', batch) /\
    batch_adv batch =
      normalize (fst (mpi_statistics_scalar peers (adv_buf b)))
                (snd (mpi_statistics_scalar peers (adv_buf b))) (adv_buf b) /\
    adv_buf b' = batch_adv batch.
Proof.
  intros Hp. unfold get. rewrite Hp, Nat.eqb_refl.
  destruct (mpi_statistics_scalar peers (adv_buf b)) as [m s].
  do 2 eexists. split; [reflexivity|]. simpl. split; reflexivity.
Qed.

(** C4, as the code has it: [get] divides by the standard deviation it
    is given without looking at it.  On a full buffer whose advantages have
    standard deviation zero, [get] succeeds and every advantage it returns,
    and keeps in the buffer, is not a number. *)
Theorem get_divides_unguarded b peers :
  ptr b = max_size b ->
  snd (mpi_statistics_scalar peers (adv_buf b)) = Xreal 0 ->
  exists b' batch,
    get peers b = Ok (b', batch) /\
    batch_adv batch = map (fun _ => Xnan) (adv_buf b) /\
    adv_buf b' = batch_adv batch.
Proof.
  intros Hp Hs.
  destruct (get_when_full b peers Hp) as (b' & batch & E & A & K).
  exists b', batch.
  split; [exact E|].
  split; [|exact K].
  rewrite A, Hs. apply normalize_zero_std.
Qed.

End Normalization.

Lemma three_ones_reached :
  run_calls (init tt tt 3 1 (97 / 100))
    [Store tt tt 1 0 0; Store tt tt 1 0 0; Store tt tt 1 0 0] = Ok three_ones.
Proof. reflexivity. Qed.

Lemma three_ones_shaped : shaped three_ones.
Proof. unfold shaped; simpl; tauto. Qed.

Lemma three_ones_cursors : cursors_ok three_ones.
Proof. unfold cursors_ok; simpl; lia. Qed.

Lemma finish_path_gae_witness :
  shaped three_ones /\ cursors_ok three_ones /\
  exists b', finish_path three_ones 0 = Ok b' /\
             Np.slice (ret_buf b') 0 3 = [3; 2; 1].
Proof.
  split; [exact three_ones_shaped|]. split; [exact three_ones_cursors|].
  destruct (finish_path_gae three_ones 0 three_ones_shaped three_ones_cursors)
    as (b' & deltas & E & H).
  exists b'. split; [exact E|].
  do 18 (destruct H as [_ H]).
  apply H; reflexivity.
Defined.

Lemma finish_path_empty_segment_witness :
  path_start_idx (init tt tt 2 1 1) = ptr (init tt tt 2 1 1) /\
  finish_path (init tt tt 2 1 1) 5 = Ok (init tt tt 2 1 1).
Proof.
  split; [reflexivity|].
  apply (finish_path_empty_segment (init tt tt 2 1 1) 5). reflexivity.
Defined.

Lemma cursors_invariant_witness :
  cursors_ok three_ones /\
  forall b', finish_path three_ones 0 = Ok b' -> cursors_ok b'.
Proof.
  split; [exact three_ones_cursors|].
  intros b' E.
  exact (proj1 (proj2 (proj2 (@cursors_invariant unit unit)))
           three_ones b' 0 three_ones_cursors E).
Defined.

Lemma capacity_contract_witness :
  (count_stores [Store tt tt 1 0 0; FinishPath 0; Store tt tt 1 0 0] <= 2)%nat /\
  exists b,
    run_calls (init tt tt 2 1 1)
      [Store tt tt 1 0 0; FinishPath 0; Store tt tt 1 0 0] = Ok b /\
    store b tt tt 1 0 0 = Raise BufferFull /\
    is_ok (get [] b) = true.
Proof.
  assert (H : (count_stores [Store tt tt 1 0 0; FinishPath 0; Store tt tt 1 0 0]
               <= 2)%nat) by (unfold count_stores; simpl; lia).
  split; [exact H|].
  destruct (capacity_contract tt tt 2 1 1 _ H) as (b & E & _ & _ & _ & Hfull & Hget & _).
  exists b. split; [exact E|]. split.
  - apply Hfull. reflexivity.
  - apply Hget. reflexivity.
Defined.

Lemma get_resets_and_reuses_witness :
  shaped three_ones /\ ptr three_ones = max_size three_ones /\
  exists b' batch, get [] three_ones = Ok (b', batch) /\
                   ptr b' = 0%nat /\ path_start_idx b' = 0%nat.
Proof.
  split; [exact three_ones_shaped|]. split; [reflexivity|].
  destruct (get_resets_and_reuses three_ones [] three_ones_shaped eq_refl)
    as (b' & batch & E & Hp & Hq & _).
  exists b', batch. auto.
Defined.

(** ** Statistics over finite entries *)

Lemma Rsum_app l1 l2 : Rsum (l1 ++ l2) = Rsum l1 + Rsum l2.
Proof. induction l1 as [|a l1 IH]; simpl; [ring|]. rewrite IH. ring. Qed.

Lemma Rsq_dev_app m l1 l2 : Rsq_dev m (l1 ++ l2) = Rsq_dev m l1 + Rsq_dev m l2.
Proof. unfold Rsq_dev. rewrite map_app. apply Rsum_app. Qed.

Lemma Rsq_dev_nonneg m l : 0 <= Rsq_dev m l.
Proof.
  unfold Rsq_dev. induction l as [|a l IH]; simpl; [lra|].
  pose proof (Rle_0_sqr (a - m)) as H. unfold Rsqr in H. lra.
Qed.

Lemma length_concat_sum {A} (P : list (list A)) :
  length (concat P) = list_sum (map (@length A) P).
Proof.
  induction P as [|x P IH]; simpl; [reflexivity|].
  rewrite length_app, IH. reflexivity.
Qed.

Lemma xsum_real l : xsum (map Xreal l) = Xreal (Rsum l).
Proof. induction l as [|a l IH]; simpl; [reflexivity|]. rewrite IH. reflexivity. Qed.

Lemma xsum_reals P :
  xsum (map xsum (map (map Xreal) P)) = Xreal (Rsum (concat P)).
Proof.
  induction P as [|x P IH]; simpl; [reflexivity|].
  rewrite IH, xsum_real, Rsum_app. reflexivity.
Qed.

Lemma sum_sq_dev_real m l :
  sum_sq_dev (Xreal m) (map Xreal l) = Xreal (Rsq_dev m l).
Proof.
  induction l as [|a l IH]; [reflexivity|].
  change (sum_sq_dev (Xreal m) (map Xreal (a :: l)))
    with (xadd (xmul (xsub (Xreal a) (Xreal m)) (xsub (Xreal a) (Xreal m)))
               (sum_sq_dev (Xreal m) (map Xreal l))).
  rewrite IH. reflexivity.
Qed.

Lemma sum_sq_dev_reals m P :
  xsum (map (sum_sq_dev (Xreal m)) (map (map Xreal) P)) =
  Xreal (Rsq_dev m (concat P)).
Proof.
  induction P as [|x P IH]; simpl; [reflexivity|].
  rewrite IH, sum_sq_dev_real, Rsq_dev_app. reflexivity.
Qed.

(** Entries that add up to a finite sum are all finite. *)
Lemma xsum_finite l t : xsum l = Xreal t -> exists rs, l = map Xreal rs.
Proof.
  revert t; induction l as [|a l IH]; intros t H.
  - exists []. reflexivity.
  - simpl in H. destruct a as [|r]; [discriminate|].
    destruct (xsum l) as [|u] eqn:E; [discriminate|].
    destruct (IH u eq_refl) as [rs ->]. exists (r :: rs). reflexivity.
Qed.

Lemma xsums_finite P t :
  xsum (map xsum P) = Xreal t -> exists W, P = map (map Xreal) W.
Proof.
  revert t; induction P as [|x P IH]; intros t H.
  - exists []. reflexivity.
  - simpl in H. destruct (xsum x) as [|r] eqn:Ex; [discriminate|].
    destruct (xsum (map xsum P)) as [|u] eqn:E; [discriminate|].
    destruct (IH u eq_refl) as [W ->].
    destruct (xsum_finite x r Ex) as [rs ->].
    exists (rs :: W). reflexivity.
Qed.

Lemma xadd_real a b : xadd (Xreal a) (Xreal b) = Xreal (a + b).
Proof. reflexivity. Qed.

(** On finite entries the collective statistics are the mean and the
    population standard deviation of all the workers' entries together. *)
Lemma mpi_statistics_real (P : list (list R)) (x : list R) :
  x ++ concat P <> [] ->
  mpi_statistics_scalar (map (map Xreal) P) (map Xreal x) =
  (Xreal (Rmean (x ++ concat P)), Xreal (Rstd (x ++ concat P))).
Proof.
  intros Hne. unfold mpi_statistics_scalar, mpi_sum.
  rewrite xsum_real, xsum_reals, xadd_real.
  rewrite !length_map.
  replace (map (@length xreal) (map (map Xreal) P)) with (map (@length R) P)
    by (rewrite map_map; apply map_ext; intros; rewrite length_map; reflexivity).
  rewrite <- length_concat_sum, <- length_app, <- Rsum_app.
  set (all := x ++ concat P) in *.
  assert (Hn : INR (length all) <> 0).
  { apply not_0_INR. destruct all; [congruence|discriminate]. }
  rewrite xdiv_real by exact Hn. fold (Rmean all).
  rewrite sum_sq_dev_real, sum_sq_dev_reals, xadd_real.
  rewrite <- Rsq_dev_app. fold all.
  rewrite xdiv_real by exact Hn.
  rewrite xsqrt_real; [reflexivity|].
  apply Rmult_le_pos; [apply Rsq_dev_nonneg|].
  left. apply Rinv_0_lt_compat. apply lt_0_INR.
  destruct all; [congruence|simpl; lia].
Qed.

Lemma Rsum_perm l l' : Permutation l l' -> Rsum l = Rsum l'.
Proof. induction 1; simpl; lra. Qed.

Lemma Rmean_perm l l' : Permutation l l' -> Rmean l = Rmean l'.
Proof.
  intros H. unfold Rmean.
  rewrite (Rsum_perm _ _ H), (Permutation_length H). reflexivity.
Qed.

Lemma Rstd_perm l l' : Permutation l l' -> Rstd l = Rstd l'.
Proof.
  intros H. unfold Rstd, Rsq_dev.
  rewrite (Rmean_perm _ _ H), (Permutation_length H).
  rewrite (Rsum_perm _ _ (Permutation_map _ H)). reflexivity.
Qed.

Lemma Rsum_norm m s l :
  Rsum (map (Rnorm m s) l) = (Rsum l - INR (length l) * m) / s.
Proof.
  induction l as [|a l IH].
  - simpl. unfold Rdiv. ring.
  - change (Rsum (map (Rnorm m s) (a :: l)))
      with (Rnorm m s a + Rsum (map (Rnorm m s) l)).
    rewrite IH. change (length (a :: l)) with (S (length l)).
    rewrite S_INR. simpl. unfold Rnorm, Rdiv. ring.
Qed.

Lemma Rsq_dev_norm m s l :
  s <> 0 -> Rsq_dev 0 (map (Rnorm m s) l) = Rsq_dev m l / (s * s).
Proof.
  intros Hs. unfold Rsq_dev. induction l as [|a l IH]; simpl.
  - field. exact Hs.
  - rewrite IH. unfold Rnorm. field. exact Hs.
Qed.

Lemma Rmean_norm l s :
  l <> [] -> Rmean (map (Rnorm (Rmean l) s) l) = 0.
Proof.
  intros Hne. unfold Rmean at 1. rewrite Rsum_norm, length_map.
  assert (Hn : INR (length l) <> 0).
  { apply not_0_INR. destruct l; [congruence|discriminate]. }
  replace (Rsum l - INR (length l) * Rmean l) with 0.
  - unfold Rdiv. ring.
  - unfold Rmean. field. exact Hn.
Qed.

Lemma Rstd_norm l :
  l <> [] -> Rstd l <> 0 -> Rstd (map (Rnorm (Rmean l) (Rstd l)) l) = 1.
Proof.
  intros Hne Hs.
  assert (Hn : 0 < INR (length l)).
  { apply lt_0_INR. destruct l; [congruence|simpl; lia]. }
  pose proof (Rsq_dev_nonneg (Rmean l) l) as Hq.
  assert (Hv : 0 <= Rsq_dev (Rmean l) l / INR (length l)).
  { apply Rmult_le_pos; [exact Hq|]. left. apply Rinv_0_lt_compat. exact Hn. }
  assert (Hss : Rstd l * Rstd l = Rsq_dev (Rmean l) l / INR (length l)).
  { unfold Rstd. apply sqrt_sqrt. exact Hv. }
  assert (Hq0 : Rsq_dev (Rmean l) l <> 0).
  { intros E. apply Hs. unfold Rstd. rewrite E.
    unfold Rdiv. rewrite Rmult_0_l. apply sqrt_0. }
  unfold Rstd at 1.
  rewrite Rmean_norm by exact Hne.
  rewrite Rsq_dev_norm by exact Hs.
  rewrite length_map, Hss.
  replace (Rsq_dev (Rmean l) l / (Rsq_dev (Rmean l) l / INR (length l))
           / INR (length l)) with 1.
  - apply sqrt_1.
  - field. split; [lra|exact Hq0].
Qed.

Lemma normalize_real m s xs :
  s <> 0 ->
  normalize (Xreal m) (Xreal s) (map Xreal xs) = map Xreal (map (Rnorm m s) xs).
Proof.
  intros Hs. unfold normalize. rewrite !map_map. apply map_ext.
  intros a. simpl xsub. unfold xsub, xlift2. apply xdiv_real. exact Hs.
Qed.


Section NormalizedAdvantages.

Context {Obs Act : Type}.
Implicit Types b : VPGBuffer Obs Act.

Lemma get_real peers b W xs :
  is_full b -> adv_buf b = map Xreal xs -> peers = map (map Xreal) W ->
  xs ++ concat W <> [] -> Rstd (xs ++ concat W) <> 0 ->
  exists o, get peers b = Ok o /\
    returned_adv o =
    map Xreal (map (Rnorm (Rmean (xs ++ concat W)) (Rstd (xs ++ concat W))) xs).
Proof.
  intros Hf Ex Ep Hne Hs. unfold get. rewrite Hf, Nat.eqb_refl.
  rewrite Ex, Ep, mpi_statistics_real by exact Hne.
  eexists. split; [reflexivity|]. unfold returned_adv. simpl.
  apply normalize_real. exact Hs.
Qed.

Lemma collective_get_real (before after : list (VPGBuffer Obs Act)) Wb Wa all :
  Forall is_full after ->
  map adv_buf before = map (map Xreal) Wb ->
  map adv_buf after = map (map Xreal) Wa ->
  Permutation (concat (Wb ++ Wa)) all ->
  all <> [] -> Rstd all <> 0 ->
  exists outs,
    each_with_others (fun others b => get (map adv_buf others) b) before after
      = map Ok outs /\
    map returned_adv outs = map (map Xreal) (map (map (Rnorm (Rmean all) (Rstd all))) Wa).
Proof.
  revert before Wb Wa.
  induction after as [|b after IH]; intros before Wb Wa Hf Eb Ea HP Hne Hs.
  - destruct Wa; [|discriminate]. exists []. split; reflexivity.
  - destruct Wa as [|xs Wa]; [discriminate|].
    simpl in Ea. injection Ea as Ex Ea.
    inversion Hf as [|? ? Hfb Hfa]; subst.
    assert (HP1 : Permutation (xs ++ concat (Wb ++ Wa)) all).
    { eapply Permutation_trans; [|exact HP].
      rewrite !concat_app. simpl. apply Permutation_app_swap_app. }
    assert (Hne1 : xs ++ concat (Wb ++ Wa) <> []).
    { intros E. rewrite E in HP1. apply Permutation_nil in HP1. congruence. }
    destruct (get_real (map adv_buf (before ++ after)) b (Wb ++ Wa) xs)
      as (o & Eo & Ho); auto.
    { rewrite !map_app, Eb, Ea. reflexivity. }
    { rewrite (Rstd_perm _ _ HP1). exact Hs. }
    rewrite (Rmean_perm _ _ HP1), (Rstd_perm _ _ HP1) in Ho.
    destruct (IH (before ++ [b]) (Wb ++ [xs]) Wa) as (outs & Eouts & Houts); auto.
    { rewrite !map_app, Eb. simpl. rewrite Ex. reflexivity. }
    { rewrite <- app_assoc. exact HP. }
    exists (o :: outs). simpl. rewrite Eo, Eouts, Ho, Houts.
    split; reflexivity.
Qed.

Lemma finite_statistics peers x m s :
  mpi_statistics_scalar peers x = (Xreal m, Xreal s) ->
  exists W xs, peers = map (map Xreal) W /\ x = map Xreal xs /\ xs ++ concat W <> [].
Proof.
  unfold mpi_statistics_scalar, mpi_sum. intros H. injection H as Hm _.
  destruct (xsum x) as [|t] eqn:Ex; [discriminate|].
  destruct (xsum (map xsum peers)) as [|u] eqn:Ep; [discriminate|].
  destruct (xsum_finite _ _ Ex) as [xs ->].
  destruct (xsums_finite _ _ Ep) as [W ->].
  exists W, xs. split; [reflexivity|]. split; [reflexivity|].
  intros E. rewrite xadd_real in Hm. simpl in Hm.
  rewrite !length_map in Hm.
  replace (map (@length xreal) (map (map Xreal) W)) with (map (@length R) W) in Hm
    by (rewrite map_map; apply map_ext; intros; rewrite length_map; reflexivity).
  rewrite <- length_concat_sum, <- length_app, E in Hm. simpl in Hm.
  destruct (Req_dec_T 0 0) as [_|N]; [discriminate|]. apply N. reflexivity.
Qed.

(** C6: when every worker's buffer is full and the advantages have a
    standard deviation other than zero across the workers, every [get]
    succeeds, and the advantage arrays returned have mean 0 and standard
    deviation 1 across the workers. *)
Theorem get_normalizes b rest m s :
  Forall is_full (b :: rest) ->
  mpi_statistics_scalar (map adv_buf rest) (adv_buf b) = (Xreal m, Xreal s) ->
  s <> 0 ->
  exists out outs,
    collective_get (b :: rest) = map Ok (out :: outs) /\
    mpi_statistics_scalar (map returned_adv outs) (returned_adv out)
      = (Xreal 0, Xreal 1).
Proof.
  intros Hf Hst Hs.
  destruct (finite_statistics _ _ _ _ Hst) as (W & xs & EW & Ex & Hne).
  rewrite EW, Ex, mpi_statistics_real in Hst by exact Hne.
  injection Hst as Hm Hsd.
  set (all := xs ++ concat W) in *.
  destruct (collective_get_real [] (b :: rest) [] (xs :: W) all)
    as (outs & Eouts & Houts); auto.
  { simpl. rewrite Ex, EW. reflexivity. }
  { rewrite Hsd. exact Hs. }
  destruct outs as [|out outs]; [discriminate|].
  exists out, outs. split; [exact Eouts|].
  simpl in Houts. injection Houts as Hout Houts.
  rewrite Hout, Houts.
  assert (Hne' : map (Rnorm (Rmean all) (Rstd all)) xs
                 ++ concat (map (map (Rnorm (Rmean all) (Rstd all))) W) <> []).
  { rewrite <- concat_map, <- map_app. fold all.
    destruct all; [congruence|discriminate]. }
  rewrite mpi_statistics_real by exact Hne'.
  rewrite <- concat_map, <- map_app. fold all.
  rewrite Rmean_norm by exact Hne.
  rewrite Rstd_norm; [reflexivity|exact Hne|rewrite Hsd; exact Hs].
Qed.

End NormalizedAdvantages.

Lemma flat2_reached :
  run_calls (init tt tt 2 (99 / 100) (97 / 100))
    [Store tt tt 0 0 0; Store tt tt 0 0 0; FinishPath 0] = Ok flat2.
Proof.
  simpl. unfold flat2. do 2 f_equal.
  - unfold dot; simpl. repeat f_equal; field.
  - unfold dot; simpl. repeat f_equal; field.
Qed.

Lemma flat2_statistics :
  mpi_statistics_scalar [] (adv_buf flat2) = (Xreal 0, Xreal 0).
Proof.
  change (adv_buf flat2) with (map Xreal [0; 0]).
  change (@nil (list xreal)) with (map (map Xreal) []).
  rewrite mpi_statistics_real by discriminate.
  assert (Em : Rmean ([0; 0] ++ concat []) = 0).
  { unfold Rmean; simpl. field. }
  unfold Rstd. rewrite Em. f_equal. f_equal.
  replace (Rsq_dev 0 ([0; 0] ++ concat []) / INR (length ([0; 0] ++ concat [])))
    with 0 by (unfold Rsq_dev; simpl; field).
  apply sqrt_0.
Qed.

(** C4 as the spec words it fails: the buffer [flat2] is full, its
    advantages have standard deviation zero, and the advantages [get]
    returns are not finite. *)
Lemma get_guard_counterexample :
  ~ (forall (b : VPGBuffer unit unit) peers,
       ptr b = max_size b ->
       snd (mpi_statistics_scalar peers (adv_buf b)) = Xreal 0 ->
       exists b' batch,
         get peers b = Ok (b', batch) /\
         forallb is_finite (batch_adv batch) = true).
Proof.
  intros claim.
  destruct (claim flat2 [] eq_refl) as (b' & batch & E & F).
  { rewrite flat2_statistics. reflexivity. }
  destruct (get_when_full flat2 [] eq_refl) as (b2 & batch2 & E2 & A & _).
  rewrite E in E2. injection E2 as _ <-.
  rewrite A, flat2_statistics, normalize_zero_std in F. discriminate F.
Qed.

Lemma get_divides_unguarded_witness :
  ptr flat2 = max_size flat2 /\
  snd (mpi_statistics_scalar [] (adv_buf flat2)) = Xreal 0 /\
  exists b' batch,
    get [] flat2 = Ok (b', batch) /\ batch_adv batch = [Xnan; Xnan].
Proof.
  assert (H : snd (mpi_statistics_scalar [] (adv_buf flat2)) = Xreal 0)
    by (rewrite flat2_statistics; reflexivity).
  split; [reflexivity|]. split; [exact H|].
  destruct (get_divides_unguarded flat2 [] eq_refl H) as (b' & batch & E & A & _).
  exists b', batch. split; [exact E|exact A].
Defined.

Lemma two_workers_statistics :
  mpi_statistics_scalar (map adv_buf [worker 3 1]) (adv_buf (worker 1 3))
  = (Xreal 2, Xreal 1).
Proof.
  change (adv_buf (worker 1 3)) with (map Xreal [1; 3]).
  change (map adv_buf [worker 3 1]) with (map (map Xreal) [[3; 1]]).
  rewrite mpi_statistics_real by discriminate.
  assert (Em : Rmean ([1; 3] ++ concat [[3; 1]]) = 2).
  { unfold Rmean; simpl. field. }
  unfold Rstd. rewrite Em. f_equal. f_equal.
  replace (Rsq_dev 2 ([1; 3] ++ concat [[3; 1]])
           / INR (length ([1; 3] ++ concat [[3; 1]])))
    with 1 by (unfold Rsq_dev; simpl; field).
  apply sqrt_1.
Qed.

Lemma get_normalizes_witness :
  Forall (fun b => ptr b = max_size b) [worker 1 3; worker 3 1] /\
  mpi_statistics_scalar (map adv_buf [worker 3 1]) (adv_buf (worker 1 3))
    = (Xreal 2, Xreal 1) /\
  1 <> 0 /\
  exists out outs,
    collective_get [worker 1 3; worker 3 1] = map Ok (out :: outs) /\
    mpi_statistics_scalar (map (fun o => batch_adv (snd o)) outs)
                          (batch_adv (snd out))
      = (Xreal 0, Xreal 1).
Proof.
  assert (F : Forall (fun b : VPGBuffer unit unit => ptr b = max_size b)
                [worker 1 3; worker 3 1]).
  { repeat constructor. }
  assert (N : 1 <> 0) by lra.
  split; [exact F|]. split; [exact two_workers_statistics|]. split; [exact N|].
  exact (get_normalizes (worker 1 3) [worker 3 1] 2 1 F two_workers_statistics N).
Defined.

Lemma delayed_app prev l1 l2 :
  delayed prev l1 -> delayed (carried_out prev l1) l2 -> delayed prev (l1 ++ l2).
Proof.
  revert prev; induction l1 as [|ts l1 IH]; intros prev H1 H2; simpl in *; auto.
  destruct H1 as (A & B & C). auto.
Qed.

Lemma carried_out_app prev l1 l2 :
  carried_out prev (l1 ++ l2) = carried_out (carried_out prev l1) l2.
Proof. unfold carried_out. apply fold_left_app. Qed.

Section TrainingFacts.

Context {Obs Act Env AC : Type}.
Variable obs_zero : Obs.
Variable act_zero : Act.
Variable env_reset : Env -> Obs * Env.
Variable env_step : Env -> Act -> (Obs * R * bool) * Env.
Variable actor_critic : AC -> Obs -> (Act * R * R) * AC.
Variable ac_update : AC -> Batch Obs Act -> AC.
Variable local_steps_per_epoch : nat.
Variable max_ep_len : Z.
Variable peers : nat -> list (list xreal).

Implicit Types s : LoopState Obs Act Env AC.

Local Abbreviation iteration' :=
  (iteration env_reset env_step actor_critic local_steps_per_epoch max_ep_len).
Local Abbreviation iterations' :=
  (iterations env_reset env_step actor_critic local_steps_per_epoch max_ep_len).
Local Abbreviation run_epoch' :=
  (run_epoch env_reset env_step actor_critic ac_update
     local_steps_per_epoch max_ep_len peers).
Local Abbreviation collecting' := (collecting local_steps_per_epoch).
Local Abbreviation run_epochs' :=
  (run_epochs env_reset env_step actor_critic ac_update
     local_steps_per_epoch max_ep_len peers).

Lemma iteration_runs t s :
  collecting' t s -> (t < local_steps_per_epoch)%nat ->
  exists s' ts,
    iteration' t s = Ok (s', ts) /\
    collecting' (S t) s' /\
    ts_stored_rew ts = st_r s /\
    st_r s' = carried ts /\
    (ts_env_done ts = true -> ts_last_val ts = Some (ts_env_rew ts)) /\
    (ts_env_done ts = false ->
     forall v, ts_last_val ts = Some v -> v = ts_stored_val ts) /\
    (S t = local_steps_per_epoch -> st_r s' = 0).
Proof.
  intros (Hs & Hc & Hp & Hm) Ht. unfold iteration.
  destruct (actor_critic (st_ac s) (st_o s)) as [[[a logp_t] v_t] ac'].
  destruct (store_inside (st_buf s) (st_o s) a (st_r s) v_t logp_t Hs)
    as (b1 & E1 & Hp1 & Hq1 & Hm1 & _ & _ & Hs1); [lia|].
  rewrite E1. simpl bind.
  destruct (env_step (st_env s) a) as [[[o r] d] env1].
  assert (Hc1 : cursors_ok b1).
  { destruct Hc as ((_ & Hpq) & Hq). unfold cursors_ok. lia. }
  destruct (finish_path_shaped b1 (if d then r else v_t) Hs1 Hc1)
    as (b2 & E2 & Hs2 & Hc2 & Hp2 & Hm2 & _).
  destruct ((d || (st_ep_len s + 1 =? max_ep_len)%Z)
            || (Z.of_nat t =? Z.of_nat local_steps_per_epoch - 1)%Z) eqn:Ecut.
  - rewrite E2. simpl bind. destruct (env_reset env1) as [o0 env2].
    do 2 eexists. split; [reflexivity|]. simpl.
    split; [unfold collecting; simpl; do 2 (split; [assumption|]); split; lia|].
    split; [reflexivity|]. split; [reflexivity|].
    split; [intros ->; reflexivity|].
    split; [intros -> v E; injection E as <-; reflexivity|].
    reflexivity.
  - do 2 eexists. split; [reflexivity|]. simpl.
    split; [unfold collecting; simpl; do 2 (split; [assumption|]); split; lia|].
    split; [reflexivity|]. split; [reflexivity|].
    apply orb_false_iff in Ecut as [Eterm Eepoch].
    apply orb_false_iff in Eterm as [Ed _].
    split; [intros Hd; congruence|].
    split; [intros _ v E; discriminate|].
    intros Hl. apply Z.eqb_neq in Eepoch. lia.
Qed.

Lemma iterations_run n t s :
  collecting' t s -> (t + n <= local_steps_per_epoch)%nat ->
  exists s' tss,
    iterations' n t s = Ok (s', tss) /\
    collecting' (t + n) s' /\
    length tss = n /\
    delayed (st_r s) tss /\
    st_r s' = carried_out (st_r s) tss /\
    ((0 < n)%nat -> (t + n)%nat = local_steps_per_epoch -> st_r s' = 0).
Proof.
  revert t s; induction n as [|n IH]; intros t s Hc Ht.
  - exists s, []. simpl. rewrite Nat.add_0_r.
    split; [reflexivity|]. split; [exact Hc|]. split; [reflexivity|].
    split; [exact I|]. split; [reflexivity|]. intros H. exfalso. lia.
  - destruct (iteration_runs t s Hc) as (s1 & ts & E1 & Hc1 & Hst & Hr1 & Hd & _ & Hl);
      [lia|].
    destruct (IH (S t) s1 Hc1) as (s2 & tss & E2 & Hc2 & Hlen & Hdel & Hr2 & Hl2);
      [lia|].
    exists s2, (ts :: tss). simpl. rewrite E1. simpl. rewrite E2. simpl.
    split; [reflexivity|].
    split; [replace (t + S n)%nat with (S t + n)%nat by lia; exact Hc2|].
    split; [lia|].
    split; [rewrite <- Hr1; auto|].
    split; [unfold carried_out in *; simpl; rewrite <- Hr1; exact Hr2|].
    intros _ Hend. destruct n as [|n].
    + simpl in E2. injection E2 as <- _. apply Hl. lia.
    + apply Hl2; lia.
Qed.

Lemma update_runs epoch s :
  collecting' local_steps_per_epoch s ->
  exists s', update ac_update peers epoch s = Ok s' /\
    collecting' 0 s' /\ st_r s' = st_r s.
Proof.
  intros (Hs & Hc & Hp & Hm). unfold update.
  destruct (get_at_capacity (peers epoch) (st_buf s))
    as (b' & batch & E & Hp' & Hq' & Hm' & _ & _ & Hs'); [lia|].
  rewrite E. simpl. eexists. split; [reflexivity|]. simpl.
  split; [|reflexivity].
  unfold collecting, cursors_ok; simpl.
  split; [auto|]. split; [lia|]. split; lia.
Qed.

Lemma run_epoch_runs epoch s :
  collecting' 0 s -> st_r s = 0 ->
  exists s' tss,
    run_epoch' epoch s = Ok (s', tss) /\
    collecting' 0 s' /\ st_r s' = 0 /\
    length tss = local_steps_per_epoch /\
    delayed 0 tss /\ carried_out 0 tss = 0.
Proof.
  intros Hc Hr. unfold run_epoch.
  destruct (iterations_run local_steps_per_epoch 0 s Hc)
    as (s1 & tss & E1 & Hc1 & Hlen & Hdel & Hr1 & Hend); [lia|].
  rewrite E1. simpl bind. simpl in Hc1.
  destruct (update_runs epoch s1 Hc1) as (s2 & E2 & Hc2 & Hr2).
  rewrite E2. simpl bind. rewrite Hr in *.
  assert (Hz : st_r s1 = 0).
  { destruct local_steps_per_epoch as [|k] eqn:Ek.
    - destruct tss; [|discriminate]. exact Hr1.
    - apply Hend; lia. }
  exists {| st_o := st_o s2; st_r := st_r s2; st_d := st_d s2;
            st_ep_ret := st_ep_ret s2; st_ep_len := st_ep_len s2;
            st_buf := st_buf s2; st_env := st_env s2; st_ac := st_ac s2;
            st_all_ep_ret := [] |}, tss.
  split; [reflexivity|]. simpl.
  split; [exact Hc2|]. split; [congruence|]. split; [exact Hlen|].
  split; [exact Hdel|congruence].
Qed.

Lemma run_epochs_run n epoch s :
  collecting' 0 s -> st_r s = 0 ->
  exists s' tss,
    run_epochs' n epoch s = Ok (s', tss) /\
    collecting' 0 s' /\ st_r s' = 0 /\
    length tss = (n * local_steps_per_epoch)%nat /\
    delayed 0 tss /\ carried_out 0 tss = 0.
Proof.
  revert epoch s; induction n as [|n IH]; intros epoch s Hc Hr.
  - exists s, []. simpl.
    split; [reflexivity|]. split; [exact Hc|]. split; [exact Hr|].
    split; [reflexivity|]. split; [exact I|reflexivity].
  - destruct (run_epoch_runs epoch s Hc Hr)
      as (s1 & tss & E1 & Hc1 & Hr1 & Hlen & Hdel & Hout).
    destruct (IH (S epoch) s1 Hc1 Hr1)
      as (s2 & rest & E2 & Hc2 & Hr2 & Hlen2 & Hdel2 & Hout2).
    exists s2, (tss ++ rest). simpl. rewrite E1. simpl. rewrite E2. simpl.
    split; [reflexivity|]. split; [exact Hc2|]. split; [exact Hr2|].
    split; [rewrite length_app; lia|].
    split.
    + apply delayed_app; [exact Hdel|]. rewrite Hout. exact Hdel2.
    + rewrite carried_out_app, Hout. exact Hout2.
Qed.

Lemma start_collecting g l (env : Env) (ac : AC) :
  collecting' 0 (start obs_zero act_zero env_reset local_steps_per_epoch g l env ac)
  /\ st_r (start obs_zero act_zero env_reset local_steps_per_epoch g l env ac) = 0.
Proof.
  unfold start. destruct (env_reset env) as [o env']. simpl.
  split; [|reflexivity].
  unfold collecting, cursors_ok; simpl.
  split; [apply init_shaped|]. split; [lia|]. split; reflexivity.
Qed.

End TrainingFacts.

(** C1 on the code: when [env.step] answers [done] with reward 1, the
    value given to [finish_path] is that reward, not 0; and when the path
    is cut by the end of the epoch, it is the critic's value of the
    observation the action was chosen from (5), not of the observation the
    step led to (6). *)
Theorem bootstrap_is_reward_or_stale_value :
  (exists s',
     iteration toy_reset (toy_step true) toy_actor_critic 4 1000 0 (toy_start 4)
     = Ok (s', {| ts_stored_rew := 0; ts_stored_val := 5; ts_env_rew := 1;
                  ts_env_done := true; ts_cut_by_len := false;
                  ts_cut_by_epoch := false; ts_last_val := Some 1 |})) /\
  (exists s',
     iteration toy_reset (toy_step false) toy_actor_critic 1 1000 0 (toy_start 1)
     = Ok (s', {| ts_stored_rew := 0; ts_stored_val := 5; ts_env_rew := 1;
                  ts_env_done := false; ts_cut_by_len := false;
                  ts_cut_by_epoch := true; ts_last_val := Some 5 |}) /\
     st_o (toy_start 1) = 5 /\
     fst (fst (fst (toy_step false tt tt))) = 6 /\
     snd (fst (toy_actor_critic tt 6)) = 6).
Proof.
  split.
  - eexists. reflexivity.
  - eexists. repeat split; reflexivity.
Qed.

(** * Further properties *)

(** ** More on the discounted cumulative sum *)

Lemma discount_cumsum_at_zero x : discount_cumsum x 0 = x.
Proof.
  induction x as [|x0 x IH]; [reflexivity|].
  rewrite discount_cumsum_cons, IH. f_equal. ring.
Qed.

(** X1: with discount 0 the discounted cumulative sum is the input
    itself. *)
Theorem discount_cumsum_zero_discount x : discount_cumsum x 0 = x.
Proof.
  induction x as [|x0 x IH]; [reflexivity|].
  rewrite discount_cumsum_cons, IH. f_equal. ring.
Qed.

Lemma map2_cons {A B C} (f : A -> B -> C) a x b y :
  Np.map2 f (a :: x) (b :: y) = f a b :: Np.map2 f x y.
Proof. reflexivity. Qed.

(** X2: the discounted cumulative sum is linear: for inputs of one
    length, the sum of [c * x] and [y] is mapped to [c] times the result
    for [x] plus the result for [y]. *)
Theorem discount_cumsum_linear c x y discount :
  length x = length y ->
  discount_cumsum (Np.map2 Rplus (map (Rmult c) x) y) discount =
  Np.map2 Rplus (map (Rmult c) (discount_cumsum x discount))
                (discount_cumsum y discount).
Proof.
  revert y; induction x as [|x0 x IH]; intros [|y0 y] L; try discriminate.
  - reflexivity.
  - simpl in L. injection L as L. simpl map. rewrite map2_cons.
    rewrite !discount_cumsum_cons, IH by exact L.
    simpl map. rewrite map2_cons. f_equal.
    destruct x as [|x1 x]; destruct y as [|y1 y]; try discriminate.
    + simpl. ring.
    + rewrite !discount_cumsum_cons. simpl. ring.
Qed.

Lemma discount_cumsum_linear_witness :
  discount_cumsum (Np.map2 Rplus (map (Rmult 2) [1; 0]) [0; 3]) 0.5 =
  Np.map2 Rplus (map (Rmult 2) (discount_cumsum [1; 0] 0.5))
                (discount_cumsum [0; 3] 0.5).
Proof. apply (discount_cumsum_linear 2 [1; 0] [0; 3] 0.5). reflexivity. Defined.

(** X3: the part of the result past the first [length x] entries depends
    only on the input past them: the sums of a later stretch are not
    affected by anything in front of it. *)
Theorem discount_cumsum_suffix x y discount :
  skipn (length x) (discount_cumsum (x ++ y) discount) = discount_cumsum y discount.
Proof.
  rewrite discount_cumsum_skipn, skipn_app, Nat.sub_diag, skipn_all.
  reflexivity.
Qed.

(** ** More on arrays *)

Lemma set_item_nth_error {A} (l l' : list A) i v :
  Np.set_item l i v = Some l' ->
  nth_error l' i = Some v /\
  (forall j, j <> i -> nth_error l' j = nth_error l j).
Proof.
  revert i l'; induction l as [|a l IH]; intros i l' E; [discriminate|].
  destruct i as [|i]; simpl in E.
  - injection E as <-. split; [reflexivity|].
    intros [|j] Hj; [contradiction|reflexivity].
  - destruct (Np.set_item l i v) as [t|] eqn:Et; [|discriminate].
    injection E as <-. destruct (IH i t Et) as [H1 H2].
    split; [exact H1|].
    intros [|j] Hj; [reflexivity|]. simpl. apply H2. lia.
Qed.

Lemma patched_nth {A} (l v : list A) p q i d :
  (p <= length l)%nat -> (i < length v)%nat ->
  nth (p + i) (firstn p l ++ v ++ skipn q l) d = nth i v d.
Proof.
  intros Hp Hi.
  assert (L : length (firstn p l) = p) by (rewrite length_firstn; lia).
  rewrite app_nth2 by lia. rewrite L.
  replace (p + i - p)%nat with i by lia.
  apply app_nth1. exact Hi.
Qed.

Lemma slice_nth {A} (l : list A) p q i d :
  (p <= q <= length l)%nat -> (i < q - p)%nat ->
  nth i (Np.slice l p q) d = nth (p + i) l d.
Proof.
  intros H Hi. rewrite slice_inside by exact H.
  rewrite nth_firstn.
  destruct (i <? q - p)%nat eqn:E; [|apply Nat.ltb_ge in E; lia].
  rewrite nth_skipn. reflexivity.
Qed.

(** ** More on the buffer *)

Section BufferExtras.

Context {Obs Act : Type}.
Implicit Types b : VPGBuffer Obs Act.

(** X4: a [store] that succeeds puts its five arguments in slot [ptr] of
    the five arrays, leaves every other slot of them as it was, and does
    not touch the advantage and return arrays. *)
Theorem store_writes_slot b b' obs act rew val logp :
  store b obs act rew val logp = Ok b' ->
  nth_error (obs_buf b') (ptr b) = Some obs /\
  nth_error (act_buf b') (ptr b) = Some act /\
  nth_error (rew_buf b') (ptr b) = Some rew /\
  nth_error (val_buf b') (ptr b) = Some val /\
  nth_error (logp_buf b') (ptr b) = Some logp /\
  (forall j, j <> ptr b ->
     nth_error (obs_buf b') j = nth_error (obs_buf b) j /\
     nth_error (act_buf b') j = nth_error (act_buf b) j /\
     nth_error (rew_buf b') j = nth_error (rew_buf b) j /\
     nth_error (val_buf b') j = nth_error (val_buf b) j /\
     nth_error (logp_buf b') j = nth_error (logp_buf b) j) /\
  adv_buf b' = adv_buf b /\ ret_buf b' = ret_buf b.
Proof.
  unfold store. destruct (ptr b <? max_size b); [|discriminate].
  destruct (Np.set_item (obs_buf b) _ _) as [o'|] eqn:Eo; [|discriminate].
  destruct (Np.set_item (act_buf b) _ _) as [a'|] eqn:Ea; [|discriminate].
  destruct (Np.set_item (rew_buf b) _ _) as [r'|] eqn:Er; [|discriminate].
  destruct (Np.set_item (val_buf b) _ _) as [v'|] eqn:Ev; [|discriminate].
  destruct (Np.set_item (logp_buf b) _ _) as [l'|] eqn:El; [|discriminate].
  simpl. intros H; injection H as <-. simpl.
  destruct (set_item_nth_error _ _ _ _ Eo) as [Ho1 Ho2].
  destruct (set_item_nth_error _ _ _ _ Ea) as [Ha1 Ha2].
  destruct (set_item_nth_error _ _ _ _ Er) as [Hr1 Hr2].
  destruct (set_item_nth_error _ _ _ _ Ev) as [Hv1 Hv2].
  destruct (set_item_nth_error _ _ _ _ El) as [Hl1 Hl2].
  do 5 (split; [assumption|]).
  split; [|split; reflexivity].
  intros j Hj.
  split; [apply Ho2; exact Hj|]. split; [apply Ha2; exact Hj|].
  split; [apply Hr2; exact Hj|]. split; [apply Hv2; exact Hj|].
  apply Hl2; exact Hj.
Qed.

(** X6: after a [finish_path] that succeeds, a second [finish_path], with
    any bootstrap value, changes nothing. *)
Theorem finish_path_twice b b' last_val last_val' :
  finish_path b last_val = Ok b' -> finish_path b' last_val' = Ok b'.
Proof.
  intros E. destruct (finish_path_cursors b b' last_val E) as (Hp & Hq & _).
  assert (Hpq : path_start_idx b' = ptr b') by congruence.
  unfold finish_path, path_deltas, path_rews, path_vals.
  rewrite Hpq, !slice_empty. simpl.
  rewrite !set_slice_empty. simpl. destruct b'; simpl in *. subst. reflexivity.
Qed.

End BufferExtras.

Lemma store_writes_slot_witness :
  exists b',
    store (init tt tt 2 1 1) tt tt 7 3 0 = Ok b' /\
    nth_error (rew_buf b') 0 = Some 7 /\ nth_error (val_buf b') 0 = Some 3.
Proof.
  eexists. split; [reflexivity|].
  pose proof (store_writes_slot (init tt tt 2 1 1) _ tt tt 7 3 0 eq_refl)
    as (_ & _ & Hr & Hv & _).
  split; [exact Hr|exact Hv].
Defined.

Lemma finish_path_twice_witness :
  exists b',
    finish_path three_ones 0 = Ok b' /\ finish_path b' 5 = Ok b'.
Proof.
  destruct (finish_path_shaped three_ones 0 three_ones_shaped three_ones_cursors)
    as (b' & E & _).
  exists b'. split; [exact E|].
  exact (finish_path_twice three_ones b' 0 5 E).
Defined.

(** ** Generalized advantage estimation *)

Lemma removelast_cons2 {A} (a b : A) l :
  removelast (a :: b :: l) = a :: removelast (b :: l).
Proof. reflexivity. Qed.

Lemma discount_cumsum_nonempty x0 x discount :
  exists y0 y, discount_cumsum (x0 :: x) discount = y0 :: y.
Proof. rewrite discount_cumsum_cons. eauto. Qed.

(** With [lam = 1] the residuals telescope. *)
Lemma residuals_telescope g last_val r v :
  length r = length v ->
  discount_cumsum
    (Np.map2 Rminus
       (Np.map2 Rplus r (map (Rmult g) (tl (v ++ [last_val])))) v) g
  = Np.map2 Rminus (removelast (discount_cumsum (r ++ [last_val]) g)) v.
Proof.
  revert v; induction r as [|r0 r IH]; intros [|v0 v] L; try discriminate.
  - reflexivity.
  - simpl in L. injection L as L. specialize (IH v L).
    change (tl ((v0 :: v) ++ [last_val])) with (v ++ [last_val]).
    change ((r0 :: r) ++ [last_val]) with (r0 :: (r ++ [last_val])).
    rewrite (discount_cumsum_cons r0).
    destruct r as [|r1 r]; destruct v as [|v1 v]; try discriminate.
    + cbn -[discount_cumsum].
      rewrite !discount_cumsum_cons, !discount_cumsum_nil. simpl.
      f_equal. ring.
    + change ((v1 :: v) ++ [last_val]) with (v1 :: (v ++ [last_val])) in *.
      change ((r1 :: r) ++ [last_val]) with (r1 :: (r ++ [last_val])) in *.
      simpl map in *. simpl tl in IH. rewrite !map2_cons in *.
      rewrite discount_cumsum_cons.
      destruct (discount_cumsum_nonempty r1 (r ++ [last_val]) g) as (y0 & y & Ey).
      rewrite Ey in *.
      assert (Hy : exists y1 y', y = y1 :: y').
      { pose proof (discount_cumsum_length (r1 :: r ++ [last_val]) g) as Hl.
        rewrite Ey in Hl. simpl in Hl. rewrite length_app in Hl. simpl in Hl.
        destruct y as [|y1 y']; [simpl in Hl; lia|eauto]. }
      destruct Hy as (y1 & y' & ->).
      rewrite !removelast_cons2 in *. rewrite !map2_cons in *.
      rewrite IH. simpl hd. f_equal. ring.
Qed.

Section GaeExtras.

Context {Obs Act : Type}.
Implicit Types b : VPGBuffer Obs Act.

Lemma path_deltas_lists b last_val :
  path_deltas b last_val =
  Np.map2 Rminus
    (Np.map2 Rplus (Np.slice (rew_buf b) (path_start_idx b) (ptr b))
       (map (Rmult (gamma b))
            (tl (Np.slice (val_buf b) (path_start_idx b) (ptr b) ++ [last_val]))))
    (Np.slice (val_buf b) (path_start_idx b) (ptr b)).
Proof.
  unfold path_deltas, path_rews, path_vals, Np.append, Np.init_part, Np.tail_part.
  rewrite !removelast_last. reflexivity.
Qed.

Lemma finished_slices b last_val :
  shaped b -> cursors_ok b ->
  exists b',
    finish_path b last_val = Ok b' /\
    val_buf b' = val_buf b /\ rew_buf b' = rew_buf b /\
    Np.slice (adv_buf b') (path_start_idx b) (ptr b) =
      map Xreal (discount_cumsum (path_deltas b last_val) (gamma b * lam b)) /\
    Np.slice (ret_buf b') (path_start_idx b) (ptr b) =
      removelast (discount_cumsum (path_rews b last_val) (gamma b)).
Proof.
  intros Hs Hc. rewrite finish_path_inside by assumption.
  destruct Hs as (Ho & Ha & Hadv & Hr & Hret & Hv & Hl).
  destruct Hc as ((_ & Hpq) & Hq).
  eexists. split; [reflexivity|]. simpl.
  split; [reflexivity|]. split; [reflexivity|].
  split.
  - apply patched_slice; [lia|].
    rewrite length_map, discount_cumsum_length, path_deltas_length by congruence.
    unfold Np.slice_len. rewrite !Nat.min_l by lia. reflexivity.
  - apply patched_slice; [lia|]. unfold Np.init_part.
    rewrite removelast_firstn_len, length_firstn, discount_cumsum_length.
    unfold path_rews, Np.append. rewrite length_app, slice_length. simpl.
    unfold Np.slice_len. rewrite !Nat.min_l by lia. lia.
Qed.

Lemma path_slices_length b :
  shaped b -> cursors_ok b ->
  length (Np.slice (rew_buf b) (path_start_idx b) (ptr b))
    = (ptr b - path_start_idx b)%nat /\
  length (Np.slice (val_buf b) (path_start_idx b) (ptr b))
    = (ptr b - path_start_idx b)%nat.
Proof.
  intros (Ho & Ha & Hadv & Hr & Hret & Hv & Hl) ((_ & Hpq) & Hq).
  rewrite !slice_length. unfold Np.slice_len.
  rewrite !Nat.min_l by lia. split; reflexivity.
Qed.

(** X7: with [lam = 1] the advantages [finish_path] writes are the
    returns it writes minus the stored values, slot by slot. *)
Theorem gae_lambda_one b last_val :
  shaped b -> cursors_ok b -> lam b = 1 ->
  exists b',
    finish_path b last_val = Ok b' /\
    Np.slice (adv_buf b') (path_start_idx b) (ptr b) =
    map Xreal
      (Np.map2 Rminus (Np.slice (ret_buf b') (path_start_idx b) (ptr b))
                      (Np.slice (val_buf b') (path_start_idx b) (ptr b))).
Proof.
  intros Hs Hc Hlam.
  destruct (finished_slices b last_val Hs Hc) as (b' & E & Ev & _ & Ea & Er).
  destruct (path_slices_length b Hs Hc) as [Lr Lv].
  exists b'. split; [exact E|].
  rewrite Ea, Er, Ev, Hlam, Rmult_1_r, path_deltas_lists.
  unfold path_rews, Np.append. f_equal.
  apply residuals_telescope. congruence.
Qed.

(** X8: with [lam = 0] the advantages [finish_path] writes are the
    one-step residuals [r[i] + gamma * v[i+1] - v[i]] themselves. *)
Theorem gae_lambda_zero b last_val :
  shaped b -> cursors_ok b -> lam b = 0 ->
  exists b',
    finish_path b last_val = Ok b' /\
    Np.slice (adv_buf b') (path_start_idx b) (ptr b) =
    map Xreal (path_deltas b last_val).
Proof.
  intros Hs Hc Hlam.
  destruct (finished_slices b last_val Hs Hc) as (b' & E & _ & _ & Ea & _).
  exists b'. split; [exact E|].
  rewrite Ea, Hlam, Rmult_0_r. f_equal. apply discount_cumsum_at_zero.
Qed.

End GaeExtras.

Lemma nth_removelast {A} (l : list A) k d :
  (k + 1 < length l)%nat -> nth k (removelast l) d = nth k l d.
Proof.
  intros H. rewrite removelast_firstn_len, nth_firstn.
  destruct (k <? pred (length l))%nat eqn:E; [reflexivity|].
  apply Nat.ltb_ge in E. lia.
Qed.

Lemma slice_single {A} (l : list A) p d :
  (p < length l)%nat -> Np.slice l p (p + 1) = [nth p l d].
Proof.
  intros H. rewrite slice_inside by lia.
  replace (p + 1 - p)%nat with 1%nat by lia.
  rewrite <- (firstn_skipn p l) at 2.
  rewrite app_nth2; rewrite length_firstn, Nat.min_l by lia; [|lia].
  rewrite Nat.sub_diag.
  destruct (skipn p l) as [|a t] eqn:E; [|reflexivity].
  pose proof (length_skipn p l) as L. rewrite E in L. simpl in L. lia.
Qed.

Section ReturnExtras.

Context {Obs Act : Type}.
Implicit Types b : VPGBuffer Obs Act.

(** X9: the returns [finish_path] writes obey, in buffer positions,
    [ret[i] = rew[i] + gamma * ret[i+1]] inside the segment, and at its last
    slot [ret[ptr-1] = rew[ptr-1] + gamma * last_val]. *)
Theorem returns_recurrence b last_val :
  shaped b -> cursors_ok b ->
  exists b',
    finish_path b last_val = Ok b' /\
    (forall i, (path_start_idx b <= i)%nat -> (i + 1 < ptr b)%nat ->
       nth i (ret_buf b') 0 =
       nth i (rew_buf b) 0 + gamma b * nth (i + 1) (ret_buf b') 0) /\
    ((path_start_idx b < ptr b)%nat ->
       nth (ptr b - 1) (ret_buf b') 0 =
       nth (ptr b - 1) (rew_buf b) 0 + gamma b * last_val).
Proof.
  intros Hs Hc. rewrite finish_path_inside by assumption.
  pose proof Hs as (Ho & Ha & Hadv & Hr & Hret & Hv & Hl).
  pose proof Hc as ((_ & Hpq) & Hq).
  destruct (path_slices_length b Hs Hc) as [Lr _].
  set (p := path_start_idx b) in *. set (q := ptr b) in *.
  set (rx := path_rews b last_val).
  assert (Lrx : length rx = (q - p + 1)%nat).
  { unfold rx, path_rews, Np.append. rewrite length_app. fold p q.
    rewrite Lr. reflexivity. }
  assert (Ly : length (discount_cumsum rx (gamma b)) = (q - p + 1)%nat).
  { rewrite discount_cumsum_length. exact Lrx. }
  assert (Lz : length (Np.init_part (discount_cumsum rx (gamma b))) = (q - p)%nat).
  { unfold Np.init_part. rewrite removelast_firstn_len, length_firstn. lia. }
  assert (Hin : forall k, (k < q - p)%nat ->
            nth (p + k)
              (firstn p (ret_buf b) ++ Np.init_part (discount_cumsum rx (gamma b))
               ++ skipn q (ret_buf b)) 0
            = nth k (discount_cumsum rx (gamma b)) 0).
  { intros k Hk. rewrite patched_nth by lia.
    unfold Np.init_part. apply nth_removelast. lia. }
  assert (Hrx : forall k, (k < q - p)%nat -> nth k rx 0 = nth (p + k) (rew_buf b) 0).
  { intros k Hk. unfold rx, path_rews, Np.append. fold p q.
    rewrite app_nth1 by lia. apply slice_nth; lia. }
  assert (Hlast : nth (q - p) (discount_cumsum rx (gamma b)) 0 = last_val).
  { rewrite discount_cumsum_step by lia.
    rewrite (nth_overflow (discount_cumsum rx (gamma b))) by lia.
    unfold rx, path_rews, Np.append. fold p q.
    rewrite app_nth2 by lia. rewrite Lr, Nat.sub_diag. simpl. ring. }
  eexists. split; [reflexivity|]. simpl. fold p q rx.
  split.
  - intros i Hi Hi1.
    replace i with (p + (i - p))%nat by lia.
    replace (p + (i - p) + 1)%nat with (p + (i - p + 1))%nat by lia.
    rewrite !Hin by lia. rewrite discount_cumsum_step by lia.
    rewrite Hrx by lia. replace (S (i - p)) with (i - p + 1)%nat by lia.
    reflexivity.
  - intros Hlt.
    replace (q - 1)%nat with (p + (q - p - 1))%nat by lia.
    rewrite Hin by lia. rewrite discount_cumsum_step by lia.
    rewrite Hrx by lia.
    replace (S (q - p - 1)) with (q - p)%nat by lia.
    rewrite Hlast. reflexivity.
Qed.

(** X10: on a segment of one step, with reward [r] and value [v], the
    advantage written is [r + gamma * last_val - v] and the return written
    is [r + gamma * last_val]. *)
Theorem single_step_path b last_val :
  shaped b -> cursors_ok b -> ptr b = (path_start_idx b + 1)%nat ->
  exists b',
    finish_path b last_val = Ok b' /\
    nth (path_start_idx b) (adv_buf b') Xnan =
      Xreal (nth (path_start_idx b) (rew_buf b) 0 + gamma b * last_val
             - nth (path_start_idx b) (val_buf b) 0) /\
    nth (path_start_idx b) (ret_buf b') 0 =
      nth (path_start_idx b) (rew_buf b) 0 + gamma b * last_val.
Proof.
  intros Hs Hc Hone. rewrite finish_path_inside by assumption.
  pose proof Hs as (Ho & Ha & Hadv & Hr & Hret & Hv & Hl).
  pose proof Hc as ((_ & Hpq) & Hq).
  assert (Ed : path_deltas b last_val =
               [nth (path_start_idx b) (rew_buf b) 0 + gamma b * last_val
                - nth (path_start_idx b) (val_buf b) 0]).
  { rewrite path_deltas_lists, Hone.
    rewrite (slice_single (rew_buf b) _ 0) by lia.
    rewrite (slice_single (val_buf b) _ 0) by lia.
    reflexivity. }
  assert (Er : path_rews b last_val =
               [nth (path_start_idx b) (rew_buf b) 0; last_val]).
  { unfold path_rews, Np.append. rewrite Hone.
    rewrite (slice_single (rew_buf b) _ 0) by lia. reflexivity. }
  eexists. split; [reflexivity|]. simpl.
  rewrite Ed, Er.
  rewrite !discount_cumsum_cons, !discount_cumsum_nil.
  replace (path_start_idx b) with (path_start_idx b + 0)%nat at 1 by lia.
  rewrite patched_nth by (simpl; lia).
  replace (path_start_idx b) with (path_start_idx b + 0)%nat at 5 by lia.
  rewrite patched_nth by (simpl; lia).
  simpl. split; [f_equal; ring|ring].
Qed.

End ReturnExtras.


Lemma one_step_shaped : shaped one_step.
Proof. unfold shaped; simpl; tauto. Qed.

Lemma one_step_cursors : cursors_ok one_step.
Proof. unfold cursors_ok; simpl; lia. Qed.

Lemma segment3_shaped g l : shaped (segment3 g l).
Proof. unfold shaped; simpl; tauto. Qed.

Lemma segment3_cursors g l : cursors_ok (segment3 g l).
Proof. unfold cursors_ok; simpl; lia. Qed.

Lemma gae_lambda_one_witness :
  exists b',
    finish_path (segment3 0.99 1) 7 = Ok b' /\
    Np.slice (adv_buf b') 0 3 =
    map Xreal (Np.map2 Rminus (Np.slice (ret_buf b') 0 3)
                              (Np.slice (val_buf b') 0 3)).
Proof.
  exact (gae_lambda_one (segment3 0.99 1) 7
           (segment3_shaped _ _) (segment3_cursors _ _) eq_refl).
Defined.

Lemma gae_lambda_zero_witness :
  exists b',
    finish_path (segment3 0.99 0) 7 = Ok b' /\
    Np.slice (adv_buf b') 0 3 = map Xreal (path_deltas (segment3 0.99 0) 7).
Proof.
  exact (gae_lambda_zero (segment3 0.99 0) 7
           (segment3_shaped _ _) (segment3_cursors _ _) eq_refl).
Defined.

Lemma returns_recurrence_witness :
  exists b',
    finish_path (segment3 0.99 0.95) 7 = Ok b' /\
    nth 2 (ret_buf b') 0 = 3 + 0.99 * 7 /\
    nth 1 (ret_buf b') 0 = 2 + 0.99 * nth 2 (ret_buf b') 0.
Proof.
  destruct (returns_recurrence (segment3 0.99 0.95) 7
              (segment3_shaped _ _) (segment3_cursors _ _))
    as (b' & E & Hstep & Hlast).
  exists b'. split; [exact E|]. split.
  - apply Hlast. simpl. lia.
  - apply (Hstep 1%nat); simpl; lia.
Defined.

Lemma single_step_path_witness :
  exists b',
    finish_path one_step 5 = Ok b' /\
    nth 0 (adv_buf b') Xnan = Xreal (0 + 0.99 * 5 - 0) /\
    nth 0 (ret_buf b') 0 = 0 + 0.99 * 5.
Proof.
  exact (single_step_path one_step 5 one_step_shaped one_step_cursors eq_refl).
Defined.

(** ** More on the main loop *)

Lemma set_item_firstn {A} (l l' : list A) i v :
  Np.set_item l i v = Some l' -> firstn (S i) l' = firstn i l ++ [v].
Proof.
  revert i l'; induction l as [|a l IH]; intros i l' E; [discriminate|].
  destruct i as [|i]; simpl in E.
  - injection E as <-. reflexivity.
  - destruct (Np.set_item l i v) as [t|] eqn:Et; [|discriminate].
    injection E as <-. simpl. f_equal. apply (IH i t Et).
Qed.

Lemma store_prefix {Obs Act} (b b' : VPGBuffer Obs Act) obs act rew val logp :
  store b obs act rew val logp = Ok b' ->
  firstn (S (ptr b)) (rew_buf b') = firstn (ptr b) (rew_buf b) ++ [rew] /\
  firstn (S (ptr b)) (val_buf b') = firstn (ptr b) (val_buf b) ++ [val].
Proof.
  unfold store. destruct (ptr b <? max_size b); [|discriminate].
  destruct (Np.set_item (obs_buf b) _ _) as [o'|] eqn:Eo; [|discriminate].
  destruct (Np.set_item (act_buf b) _ _) as [a'|] eqn:Ea; [|discriminate].
  destruct (Np.set_item (rew_buf b) _ _) as [r'|] eqn:Er; [|discriminate].
  destruct (Np.set_item (val_buf b) _ _) as [v'|] eqn:Ev; [|discriminate].
  destruct (Np.set_item (logp_buf b) _ _) as [l'|] eqn:El; [|discriminate].
  simpl. intros H; injection H as <-. simpl.
  split; eapply set_item_firstn; eassumption.
Qed.

Lemma finish_path_keeps {Obs Act} (b b' : VPGBuffer Obs Act) last_val :
  finish_path b last_val = Ok b' ->
  rew_buf b' = rew_buf b /\ val_buf b' = val_buf b.
Proof.
  unfold finish_path.
  destruct (Np.set_slice (adv_buf b) _ _ _); [|discriminate].
  destruct (Np.set_slice (ret_buf b) _ _ _); [|discriminate].
  simpl. intros H; injection H as <-. simpl. auto.
Qed.

Section LoopExtras.

Context {Obs Act Env AC : Type}.
Variable env_reset : Env -> Obs * Env.
Variable env_step : Env -> Act -> (Obs * R * bool) * Env.
Variable actor_critic : AC -> Obs -> (Act * R * R) * AC.
Variable local_steps_per_epoch : nat.
Variable max_ep_len : Z.

Implicit Types s : LoopState Obs Act Env AC.

Local Abbreviation iteration' :=
  (iteration env_reset env_step actor_critic local_steps_per_epoch max_ep_len).
Local Abbreviation iterations' :=
  (iterations env_reset env_step actor_critic local_steps_per_epoch max_ep_len).
Local Abbreviation collecting' := (collecting local_steps_per_epoch).

Lemma iteration_effects t s :
  collecting' t s -> (t < local_steps_per_epoch)%nat ->
  exists s' ts,
    iteration' t s = Ok (s', ts) /\
    collecting' (S t) s' /\
    (ts_cut_by_epoch ts = true <-> S t = local_steps_per_epoch) /\
    (ts_cut_by_len ts = true <-> (st_ep_len s + 1)%Z = max_ep_len) /\
    (closes ts = true ->
       path_start_idx (st_buf s') = S t /\
       st_ep_len s' = 0%Z /\ st_ep_ret s' = 0) /\
    (closes ts = false ->
       path_start_idx (st_buf s') = path_start_idx (st_buf s) /\
       st_ep_len s' = (st_ep_len s + 1)%Z /\
       st_ep_ret s' = st_ep_ret s + ts_env_rew ts) /\
    st_all_ep_ret s' =
      st_all_ep_ret s ++
      (if ts_env_done ts || ts_cut_by_len ts
       then [st_ep_ret s + ts_env_rew ts] else []) /\
    firstn (S t) (rew_buf (st_buf s')) =
      firstn t (rew_buf (st_buf s)) ++ [ts_stored_rew ts] /\
    firstn (S t) (val_buf (st_buf s')) =
      firstn t (val_buf (st_buf s)) ++ [ts_stored_val ts].
Proof.
  intros (Hs & Hc & Hp & Hm) Ht. unfold iteration.
  destruct (actor_critic (st_ac s) (st_o s)) as [[[a logp_t] v_t] ac'].
  destruct (store_inside (st_buf s) (st_o s) a (st_r s) v_t logp_t Hs)
    as (b1 & E1 & Hp1 & Hq1 & Hm1 & _ & _ & Hs1); [lia|].
  destruct (store_prefix _ _ _ _ _ _ _ E1) as [Pr Pv]. rewrite Hp in Pr, Pv.
  rewrite E1. simpl bind.
  destruct (env_step (st_env s) a) as [[[o r] d] env1].
  assert (Hc1 : cursors_ok b1).
  { destruct Hc as ((_ & Hpq) & Hq). unfold cursors_ok. lia. }
  destruct (finish_path_shaped b1 (if d then r else v_t) Hs1 Hc1)
    as (b2 & E2 & Hs2 & Hc2 & Hp2 & Hm2 & _).
  destruct (finish_path_cursors _ _ _ E2) as (_ & Hq2 & _).
  destruct (finish_path_keeps _ _ _ E2) as [Kr Kv].
  assert (Hepoch : (Z.of_nat t =? Z.of_nat local_steps_per_epoch - 1)%Z = true
                   <-> S t = local_steps_per_epoch).
  { rewrite Z.eqb_eq. lia. }
  assert (Hlen : (st_ep_len s + 1 =? max_ep_len)%Z = true
                 <-> (st_ep_len s + 1)%Z = max_ep_len).
  { apply Z.eqb_eq. }
  destruct ((d || (st_ep_len s + 1 =? max_ep_len)%Z)
            || (Z.of_nat t =? Z.of_nat local_steps_per_epoch - 1)%Z) eqn:Ecut.
  - rewrite E2. simpl bind. destruct (env_reset env1) as [o0 env2].
    do 2 eexists. split; [reflexivity|]. unfold closes. simpl. rewrite Ecut.
    split; [unfold collecting; simpl; do 2 (split; [assumption|]); split; lia|].
    split; [exact Hepoch|]. split; [exact Hlen|].
    split; [intros _; split; [lia|split; reflexivity]|].
    split; [discriminate|].
    split.
    { destruct (d || (st_ep_len s + 1 =? max_ep_len)%Z);
        [reflexivity|rewrite app_nil_r; reflexivity]. }
    rewrite Kr, Kv. split; assumption.
  - do 2 eexists. split; [reflexivity|]. unfold closes. simpl. rewrite Ecut.
    split; [unfold collecting; simpl; do 2 (split; [assumption|]); split; lia|].
    split; [exact Hepoch|]. split; [exact Hlen|].
    split; [discriminate|].
    split; [intros _; split; [exact Hq1|split; reflexivity]|].
    apply orb_false_iff in Ecut as [Eterm _]. rewrite Eterm.
    split; [rewrite app_nil_r; reflexivity|].
    split; assumption.
Qed.

Lemma iterations_effects n t s :
  collecting' t s -> (t + n <= local_steps_per_epoch)%nat ->
  exists s' tss,
    iterations' n t s = Ok (s', tss) /\
    collecting' (t + n) s' /\
    firstn (t + n) (rew_buf (st_buf s')) =
      firstn t (rew_buf (st_buf s)) ++ map ts_stored_rew tss /\
    firstn (t + n) (val_buf (st_buf s')) =
      firstn t (val_buf (st_buf s)) ++ map ts_stored_val tss /\
    st_all_ep_ret s' = st_all_ep_ret s ++ episode_returns (st_ep_ret s) tss /\
    ((0 < n)%nat -> (t + n)%nat = local_steps_per_epoch ->
       path_start_idx (st_buf s') = ptr (st_buf s')) /\
    (open_path_ok max_ep_len s -> open_path_ok max_ep_len s').
Proof.
  revert t s; induction n as [|n IH]; intros t s Hc Ht.
  - exists s, []. simpl. rewrite Nat.add_0_r, !app_nil_r.
    split; [reflexivity|]. split; [exact Hc|].
    do 3 (split; [reflexivity|]). split; [intros H; exfalso; lia|auto].
  - destruct (iteration_effects t s Hc)
      as (s1 & ts & E1 & Hc1 & Hep & Hlen & Hcl & Hop & Hall & Hr & Hv); [lia|].
    destruct (IH (S t) s1 Hc1)
      as (s2 & tss & E2 & Hc2 & Hr2 & Hv2 & Hall2 & Hend2 & Hinv2); [lia|].
    exists s2, (ts :: tss). simpl. rewrite E1. simpl. rewrite E2. simpl.
    replace (t + S n)%nat with (S t + n)%nat by lia.
    split; [reflexivity|]. split; [exact Hc2|].
    split; [rewrite Hr2, Hr, <- app_assoc; reflexivity|].
    split; [rewrite Hv2, Hv, <- app_assoc; reflexivity|].
    split.
    { rewrite Hall2, Hall, <- app_assoc. f_equal.
      destruct (ts_env_done ts || ts_cut_by_len ts) eqn:Eterm.
      - assert (Ec : closes ts = true) by (unfold closes; rewrite Eterm; reflexivity).
        destruct (Hcl Ec) as (_ & _ & ->). reflexivity.
      - destruct (ts_cut_by_epoch ts) eqn:Ecut.
        + assert (Ec : closes ts = true)
            by (unfold closes; rewrite Eterm, Ecut; reflexivity).
          destruct (Hcl Ec) as (_ & _ & ->). reflexivity.
        + assert (Ec : closes ts = false)
            by (unfold closes; rewrite Eterm, Ecut; reflexivity).
          destruct (Hop Ec) as (_ & _ & ->). reflexivity. }
    split.
    { intros _ Hlast. destruct n as [|n].
      - simpl in E2. injection E2 as <- _.
        assert (Ec : closes ts = true).
        { unfold closes. replace (ts_cut_by_epoch ts) with true.
          - apply orb_true_r.
          - symmetry. apply Hep. lia. }
        destruct (Hcl Ec) as (Hq & _). destruct Hc1 as (_ & _ & Hp1 & _).
        congruence.
      - apply Hend2; lia. }
    intros (Hseg & Hlo & Hhi). apply Hinv2.
    destruct Hc as (_ & ((_ & Hpq) & _) & Hp & _).
    destruct Hc1 as (_ & _ & Hp1 & _).
    unfold open_path_ok. destruct (closes ts) eqn:Ec.
    + destruct (Hcl eq_refl) as (Hq & -> & _). rewrite Hq, Hp1. lia.
    + destruct (Hop eq_refl) as (Hq & -> & _). rewrite Hq, Hp1.
      assert (Hn : (st_ep_len s + 1)%Z <> max_ep_len).
      { intros E. apply Hlen in E. unfold closes in Ec.
        rewrite E, orb_true_r in Ec. discriminate. }
      lia.
Qed.

(** X11: by the end of the inner loop of an epoch the buffer is full and
    its last path is closed ([path_start_idx = ptr = max_size]): every slot
    handed to the update belongs to a path [finish_path] has processed in
    this epoch. *)
Theorem epoch_closes_every_path s :
  collecting local_steps_per_epoch 0 s ->
  exists s' tss,
    iterations env_reset env_step actor_critic local_steps_per_epoch max_ep_len
      local_steps_per_epoch 0 s = Ok (s', tss) /\
    ptr (st_buf s') = max_size (st_buf s') /\
    path_start_idx (st_buf s') = ptr (st_buf s').
Proof.
  intros Hc.
  destruct (iterations_effects local_steps_per_epoch 0 s Hc)
    as (s' & tss & E & Hc' & _ & _ & _ & Hend & _); [lia|].
  exists s', tss. split; [exact E|].
  destruct Hc' as (_ & _ & Hp & Hm). simpl in Hp.
  split; [congruence|].
  destruct local_steps_per_epoch as [|k] eqn:Ek.
  - simpl in E. injection E as <- _.
    destruct Hc as (_ & ((_ & Hpq) & _) & Hp0 & _). lia.
  - apply Hend; lia.
Qed.

(** X12: after the inner loop of an epoch, the reward and value arrays of
    the buffer hold, in order, exactly the rewards and values the
    iterations gave to [store]. *)
Theorem buffer_holds_what_was_stored s :
  collecting local_steps_per_epoch 0 s ->
  exists s' tss,
    iterations env_reset env_step actor_critic local_steps_per_epoch max_ep_len
      local_steps_per_epoch 0 s = Ok (s', tss) /\
    rew_buf (st_buf s') = map ts_stored_rew tss /\
    val_buf (st_buf s') = map ts_stored_val tss.
Proof.
  intros Hc.
  destruct (iterations_effects local_steps_per_epoch 0 s Hc)
    as (s' & tss & E & Hc' & Hr & Hv & _); [lia|].
  exists s', tss. split; [exact E|].
  destruct Hc' as ((_ & _ & _ & Lr & _ & Lv & _) & _ & _ & Hm).
  simpl in Hr, Hv. rewrite firstn_all2 in Hr by lia.
  rewrite firstn_all2 in Hv by lia. split; assumption.
Qed.

(** X13: while the step limit is positive, the open path of the buffer
    has as many steps as [ep_len] counts, and fewer than [max_ep_len], at
    the start of every iteration: no path grows past [max_ep_len] steps. *)
Theorem path_length_bounded n t s :
  collecting local_steps_per_epoch t s -> (t + n <= local_steps_per_epoch)%nat ->
  open_path_ok max_ep_len s ->
  exists s' tss,
    iterations env_reset env_step actor_critic local_steps_per_epoch max_ep_len
      n t s = Ok (s', tss) /\ open_path_ok max_ep_len s'.
Proof.
  intros Hc Ht Hinv.
  destruct (iterations_effects n t s Hc Ht)
    as (s' & tss & E & _ & _ & _ & _ & _ & Hkeep).
  exists s', tss. split; [exact E|apply Hkeep; exact Hinv].
Qed.

(** X14: the returns the inner loop appends to [all_ep_ret] are, per path
    that [done] or the step limit ended, the plain sum of the rewards
    [env.step] returned since the last reset, the final one included; a
    path cut only by the end of the epoch appends nothing. *)
Theorem logged_episode_returns n t s :
  collecting local_steps_per_epoch t s -> (t + n <= local_steps_per_epoch)%nat ->
  exists s' tss,
    iterations env_reset env_step actor_critic local_steps_per_epoch max_ep_len
      n t s = Ok (s', tss) /\
    st_all_ep_ret s' = st_all_ep_ret s ++ episode_returns (st_ep_ret s) tss.
Proof.
  intros Hc Ht.
  destruct (iterations_effects n t s Hc Ht)
    as (s' & tss & E & _ & _ & _ & Hall & _).
  exists s', tss. split; assumption.
Qed.

End LoopExtras.

Lemma toy_collecting steps : collecting steps 0 (toy_start steps).
Proof.
  unfold toy_start, start, collecting, cursors_ok; simpl.
  split; [apply init_shaped|]. split; [lia|]. split; reflexivity.
Qed.

Lemma toy_open_path steps : open_path_ok 1000 (toy_start steps).
Proof. unfold open_path_ok; simpl. lia. Qed.

Lemma epoch_closes_every_path_witness :
  collecting 4 0 (toy_start 4) /\
  exists s' tss,
    iterations toy_reset (toy_step false) toy_actor_critic 4 1000 4 0 (toy_start 4)
      = Ok (s', tss) /\
    ptr (st_buf s') = max_size (st_buf s') /\
    path_start_idx (st_buf s') = ptr (st_buf s').
Proof.
  split; [exact (toy_collecting 4)|].
  exact (epoch_closes_every_path toy_reset (toy_step false) toy_actor_critic
           4 1000 (toy_start 4) (toy_collecting 4)).
Defined.

Lemma buffer_holds_what_was_stored_witness :
  collecting 4 0 (toy_start 4) /\
  exists s' tss,
    iterations toy_reset (toy_step true) toy_actor_critic 4 1000 4 0 (toy_start 4)
      = Ok (s', tss) /\
    rew_buf (st_buf s') = map ts_stored_rew tss /\
    val_buf (st_buf s') = map ts_stored_val tss.
Proof.
  split; [exact (toy_collecting 4)|].
  exact (buffer_holds_what_was_stored toy_reset (toy_step true) toy_actor_critic
           4 1000 (toy_start 4) (toy_collecting 4)).
Defined.

Lemma path_length_bounded_witness :
  collecting 4 0 (toy_start 4) /\ (0 + 3 <= 4)%nat /\
  open_path_ok 1000 (toy_start 4) /\
  exists s' tss,
    iterations toy_reset (toy_step false) toy_actor_critic 4 1000 3 0 (toy_start 4)
      = Ok (s', tss) /\
    open_path_ok 1000 s'.
Proof.
  assert (H : (0 + 3 <= 4)%nat) by lia.
  split; [exact (toy_collecting 4)|]. split; [exact H|].
  split; [exact (toy_open_path 4)|].
  exact (path_length_bounded toy_reset (toy_step false) toy_actor_critic
           4 1000 3 0 (toy_start 4) (toy_collecting 4) H (toy_open_path 4)).
Defined.

Lemma logged_episode_returns_witness :
  collecting 4 0 (toy_start 4) /\ (0 + 2 <= 4)%nat /\
  exists s' tss,
    iterations toy_reset (toy_step true) toy_actor_critic 4 1000 2 0 (toy_start 4)
      = Ok (s', tss) /\
    st_all_ep_ret s' =
      st_all_ep_ret (toy_start 4) ++ episode_returns (st_ep_ret (toy_start 4)) tss.
Proof.
  assert (H : (0 + 2 <= 4)%nat) by lia.
  split; [exact (toy_collecting 4)|]. split; [exact H|].
  exact (logged_episode_returns toy_reset (toy_step true) toy_actor_critic
           4 1000 2 0 (toy_start 4) (toy_collecting 4) H).
Defined.

(** ** Shapes and networks *)

(** X15: whatever the [shape] argument, the first dimension of
    [combined_shape] is [length] and an array of that shape has [length]
    times the entries of one slot; an empty tuple gives the same shape as
    [None]. *)
Theorem combined_shape_rows length shape :
  hd 0%nat (combined_shape length shape) = length /\
  entries (combined_shape length shape) = (length * slot_entries shape)%nat /\
  combined_shape length (ShapeTuple []) = combined_shape length ShapeNone.
Proof.
  split; [destruct shape; reflexivity|].
  split; [|reflexivity].
  destruct shape as [|n|dims]; simpl; lia.
Qed.

Lemma nth_error_last {A} (l : list A) (d : A) :
  l <> [] -> nth_error l (length l - 1) = Some (last l d).
Proof.
  induction l as [|a l IH]; intros H; [congruence|].
  destruct l as [|b l]; [reflexivity|].
  replace (length (a :: b :: l) - 1)%nat with (S (length (b :: l) - 1))
    by (simpl; lia).
  change (nth_error (b :: l) (length (b :: l) - 1) = Some (last (b :: l) d)).
  apply IH. discriminate.
Qed.

Lemma make_mlp_model_layers input s0 rest act output_act :
  make_mlp_model input (s0 :: rest) act output_act =
  Ok (mkDense s0 act (Some input)
      :: map (fun size => mkDense size act None) (removelast rest)
      ++ [mkDense (last rest s0) output_act None]).
Proof.
  unfold make_mlp_model.
  rewrite (nth_error_last (s0 :: rest) s0) by discriminate.
  change (nth_error (s0 :: rest) 0) with (Some s0).
  cbn [or_raise bind]. unfold Np.init_part, Np.tail_part. cbn [tl].
  assert (El : last (s0 :: rest) s0 = last rest s0).
  { destruct rest; reflexivity. }
  rewrite El.
  destruct (2 <? length (s0 :: rest))%nat eqn:E.
  - reflexivity.
  - apply Nat.ltb_ge in E. simpl in E.
    destruct rest as [|s1 [|s2 rest]]; simpl in E; try lia; reflexivity.
Qed.

(** X16: for two or more sizes, [make_mlp_model] builds one [Dense] layer
    per size, in order; every layer but the last has the hidden
    activation, the last has the output activation, and only the first
    declares the input shape. *)
Theorem make_mlp_model_structure input sizes act output_act :
  (2 <= length sizes)%nat ->
  exists layers,
    make_mlp_model input sizes act output_act = Ok layers /\
    map units layers = sizes /\
    map activation layers = repeat act (length sizes - 1) ++ [output_act] /\
    map input_shape layers = Some input :: repeat None (length sizes - 1).
Proof.
  intros H. destruct sizes as [|s0 rest]; [simpl in H; lia|].
  assert (Hr : rest <> []) by (destruct rest; [simpl in H; lia|discriminate]).
  rewrite make_mlp_model_layers. eexists. split; [reflexivity|].
  assert (Lr : length (removelast rest) = (length rest - 1)%nat).
  { rewrite removelast_firstn_len, length_firstn. lia. }
  replace (length (s0 :: rest) - 1)%nat with (length rest) by (simpl; lia).
  split; [|split].
  - simpl. rewrite map_app, map_map. simpl. rewrite map_id.
    f_equal. symmetry. apply app_removelast_last. exact Hr.
  - simpl. rewrite map_app, map_map. simpl.
    replace (map (fun _ : nat => act) (removelast rest))
      with (repeat act (length rest - 1)).
    + destruct rest as [|s1 rest]; [congruence|].
      replace (length (s1 :: rest) - 1)%nat with (length rest) by (simpl; lia).
      reflexivity.
    + rewrite <- Lr. clear. induction (removelast rest); simpl; congruence.
  - simpl. rewrite map_app, map_map. simpl. f_equal.
    replace (map (fun _ : nat => @None nat) (removelast rest))
      with (repeat (@None nat) (length rest - 1)).
    + destruct rest as [|s1 rest]; [congruence|].
      replace (length (s1 :: rest) - 1)%nat with (length rest) by (simpl; lia).
      simpl length. rewrite <- repeat_cons. reflexivity.
    + rewrite <- Lr. clear. induction (removelast rest); simpl; congruence.
Qed.

Lemma make_mlp_model_structure_witness :
  (2 <= length [64; 64; 6])%nat /\
  exists layers,
    make_mlp_model 17 [64; 64; 6]%nat None None = Ok layers /\
    map units layers = [64; 64; 6]%nat.
Proof.
  assert (H : (2 <= length [64; 64; 6]%nat)%nat) by (simpl; lia).
  split; [exact H|].
  destruct (make_mlp_model_structure 17 [64; 64; 6]%nat None None H)
    as (layers & E & U & _).
  exists layers. split; assumption.
Defined.

(** X17: a single size [n] gives a network of two layers of [n] units,
    one with the hidden and one with the output activation; no size at all
    raises [IndexError]. *)
Theorem make_mlp_model_short_sizes input n act output_act :
  make_mlp_model input [n] act output_act =
    Ok [mkDense n act (Some input); mkDense n output_act None] /\
  make_mlp_model input [] act output_act = Raise IndexError.
Proof. split; reflexivity. Qed.

Lemma last_app_single {A} (l : list A) (a d : A) : last (l ++ [a]) d = a.
Proof. apply last_last. Qed.

Lemma make_mlp_model_head input hidden k act output_act :
  exists layers,
    make_mlp_model input (hidden ++ [k]) act output_act = Ok layers /\
    last layers (mkDense 0 None None) = mkDense k output_act None /\
    length layers = Nat.max 2 (length hidden + 1).
Proof.
  destruct hidden as [|h0 hidden].
  - eexists. split; [reflexivity|]. split; reflexivity.
  - change ((h0 :: hidden) ++ [k]) with (h0 :: (hidden ++ [k])).
    rewrite make_mlp_model_layers. eexists. split; [reflexivity|].
    rewrite removelast_last, last_app_single.
    split.
    + change (mkDense h0 act (Some input)
              :: map (fun size => mkDense size act None) hidden
              ++ [mkDense k output_act None])
        with ((mkDense h0 act (Some input)
               :: map (fun size => mkDense size act None) hidden)
              ++ [mkDense k output_act None]).
      apply last_last.
    + cbn [length]. rewrite length_app, length_map. cbn [length]. lia.
Qed.

(** X18: [ActorCritic.__init__] never fails, whatever the hidden sizes.
    The value network always ends in one unit without activation.  For a
    [Box] the policy network ends in as many units as the sampled action has
    entries, with the output activation asked for, and [log_std] holds
    [-0.5] per entry; for a [Discrete] space it ends in [n] units and the
    output activation asked for is ignored, and there is no [log_std]; for
    any other space no policy network and no policy are set. *)
Theorem ActorCritic_init_heads obs_dim hidden_sizes act output_act space :
  exists ac,
    ActorCritic_init obs_dim hidden_sizes act output_act space = Ok ac /\
    last (v_mlp ac) (mkDense 0 None None) = mkDense 1 None None /\
    length (v_mlp ac) = Nat.max 2 (length hidden_sizes + 1) /\
    match space with
    | Box sample =>
        exists pi, pi_mlp ac = Some pi /\
          last pi (mkDense 0 None None) = mkDense (length sample) output_act None /\
          policy ac = Some mlp_gaussian_policy_kind /\
          log_std ac = Some (repeat (-0.5 * 1) (length sample))
    | Discrete n =>
        exists pi, pi_mlp ac = Some pi /\
          last pi (mkDense 0 None None) = mkDense n None None /\
          policy ac = Some mlp_categorical_policy_kind /\
          log_std ac = None
    | OtherSpace =>
        pi_mlp ac = None /\ policy ac = None /\ log_std ac = None
    end.
Proof.
  destruct (make_mlp_model_head obs_dim hidden_sizes 1 act None)
    as (v & Ev & Lv & Nv).
  destruct space as [sample|n|]; unfold ActorCritic_init.
  - destruct (make_mlp_model_head obs_dim hidden_sizes (length sample) act output_act)
      as (pi & Ep & Lp & _).
    rewrite Ep, Ev. simpl. eexists. split; [reflexivity|]. simpl.
    split; [exact Lv|]. split; [exact Nv|].
    exists pi. split; [reflexivity|]. split; [exact Lp|]. split; [reflexivity|].
    f_equal. apply map_repeat.
  - destruct (make_mlp_model_head obs_dim hidden_sizes n act None)
      as (pi & Ep & Lp & _).
    rewrite Ep, Ev. simpl. eexists. split; [reflexivity|]. simpl.
    split; [exact Lv|]. split; [exact Nv|].
    exists pi. repeat split; assumption || reflexivity.
  - rewrite Ev. simpl. eexists. split; [reflexivity|]. simpl.
    split; [exact Lv|]. split; [exact Nv|]. repeat split.
Qed.

(** ** Likelihoods *)

Lemma pre_sum_peak x mu ls : pre_sum x mu ls <= pre_sum mu mu ls.
Proof.
  unfold pre_sum.
  pose proof (pow2_ge_0 ((x - mu) / (exp ls + EPS))) as H.
  replace ((mu - mu) / (exp ls + EPS)) with 0 by (unfold Rdiv; ring).
  lra.
Qed.

Lemma row_likelihood_peak xr mur ls :
  length xr = length mur ->
  reduce_sum (map3 pre_sum xr mur ls) <= reduce_sum (map3 pre_sum mur mur ls).
Proof.
  revert mur ls; induction xr as [|x xr IH]; intros [|m mur] ls L;
    try discriminate; [simpl; lra|].
  destruct ls as [|l ls]; [simpl; lra|].
  simpl in L. injection L as L. simpl.
  pose proof (pre_sum_peak x m l). pose proof (IH mur ls L). lra.
Qed.

(** X19: for actions and means of one shape, the Gaussian log-likelihood
    of any action is at most that of the mean itself, row by row. *)
Theorem gaussian_likelihood_peak x mu log_std :
  Forall2 (fun xr mur => length xr = length mur) x mu ->
  Forall2 Rle (gaussian_likelihood x mu log_std)
              (gaussian_likelihood mu mu log_std).
Proof.
  unfold gaussian_likelihood. induction 1 as [|xr mur x mu L _ IH]; simpl.
  - constructor.
  - constructor; [apply row_likelihood_peak; exact L|exact IH].
Qed.

Lemma gaussian_likelihood_peak_witness :
  Forall2 (fun xr mur => length xr = length mur) [[1; 2]] [[0; 0]] /\
  Forall2 Rle (gaussian_likelihood [[1; 2]] [[0; 0]] [-0.5; -0.5])
              (gaussian_likelihood [[0; 0]] [[0; 0]] [-0.5; -0.5]).
Proof.
  assert (H : Forall2 (fun xr mur : list R => length xr = length mur)
                [[1; 2]] [[0; 0]]) by (repeat constructor).
  split; [exact H|].
  exact (gaussian_likelihood_peak [[1; 2]] [[0; 0]] [-0.5; -0.5] H).
Defined.

(** ** Policies *)

Lemma one_hot_miss (index : Z) (start : nat) (row : list R) :
  (index < Z.of_nat start \/ Z.of_nat (start + length row) <= index)%Z ->
  reduce_sum
    (Np.map2 Rmult
       (map (fun k => if (Z.of_nat k =? index)%Z then 1 else 0)
            (seq start (length row))) row) = 0.
Proof.
  revert start; induction row as [|a row IH]; intros start H; [reflexivity|].
  simpl length in *. simpl seq. simpl map. rewrite map2_cons. simpl reduce_sum.
  destruct (Z.of_nat start =? index)%Z eqn:E.
  - apply Z.eqb_eq in E. lia.
  - fold (reduce_sum
            (Np.map2 Rmult
               (map (fun k => if (Z.of_nat k =? index)%Z then 1 else 0)
                    (seq (S start) (length row))) row)).
    rewrite IH by lia. ring.
Qed.

Lemma one_hot_hit (k start : nat) (row : list R) :
  (k < length row)%nat ->
  reduce_sum
    (Np.map2 Rmult
       (map (fun j => if (Z.of_nat j =? Z.of_nat (start + k))%Z then 1 else 0)
            (seq start (length row))) row) = nth k row 0.
Proof.
  revert k start; induction row as [|a row IH]; intros k start H;
    [simpl in H; lia|].
  simpl length in *. simpl seq. simpl map. rewrite map2_cons. simpl reduce_sum.
  fold (reduce_sum
          (Np.map2 Rmult
             (map (fun j => if (Z.of_nat j =? Z.of_nat (start + k))%Z then 1 else 0)
                  (seq (S start) (length row))) row)).
  destruct k as [|k].
  - rewrite Nat.add_0_r, Z.eqb_refl.
    rewrite one_hot_miss by lia. simpl. ring.
  - destruct (Z.of_nat start =? Z.of_nat (start + S k))%Z eqn:E;
      [apply Z.eqb_eq in E; lia|].
    replace (start + S k)%nat with (S start + k)%nat by lia.
    rewrite IH by lia. simpl. ring.
Qed.

Lemma log_softmax_length row : length (log_softmax row) = length row.
Proof. unfold log_softmax. apply length_map. Qed.

Lemma log_softmax_nth row k :
  (k < length row)%nat ->
  nth k (log_softmax row) 0 = nth k row 0 - ln (reduce_sum (map exp row)).
Proof.
  intros H. unfold log_softmax.
  rewrite (nth_indep _ 0 (0 - ln (reduce_sum (map exp row))))
    by (rewrite length_map; exact H).
  apply (map_nth (fun l => l - ln (reduce_sum (map exp row)))).
Qed.

Lemma picked_logp act_dim a row :
  length row = act_dim ->
  reduce_sum (Np.map2 Rmult (one_hot a act_dim) (log_softmax row)) =
  if ((0 <=? a)%Z && (a <? Z.of_nat act_dim)%Z)%bool
  then nth (Z.to_nat a) row 0 - ln (reduce_sum (map exp row))
  else 0.
Proof.
  intros L. unfold one_hot. rewrite <- L, <- (log_softmax_length row).
  destruct ((0 <=? a)%Z && (a <? Z.of_nat (length (log_softmax row)))%Z)%bool eqn:E.
  - apply andb_true_iff in E as [E1 E2].
    apply Z.leb_le in E1. apply Z.ltb_lt in E2.
    assert (Hk : (Z.to_nat a < length (log_softmax row))%nat) by lia.
    pose proof (one_hot_hit (Z.to_nat a) 0 (log_softmax row) Hk) as Hh.
    cbn [Nat.add] in Hh. rewrite Z2Nat.id in Hh by lia. rewrite Hh.
    apply log_softmax_nth. rewrite log_softmax_length in Hk. exact Hk.
  - apply one_hot_miss. apply andb_false_iff in E as [E|E].
    + apply Z.leb_gt in E. lia.
    + apply Z.ltb_ge in E. lia.
Qed.

(** X20: for logits with [act_dim] entries per row, the log-probability
    the categorical policy reports for a given action [a] is
    [logits[a] - ln (sum of exp logits)] when [0 <= a < act_dim], and [0]
    when [a] is out of range. *)
Theorem categorical_logp act_dim logits sample action :
  Forall (fun row => length row = act_dim) logits ->
  snd (mlp_categorical_policy act_dim logits sample (Some action)) =
  Np.map2
    (fun a row =>
       if ((0 <=? a)%Z && (a <? Z.of_nat act_dim)%Z)%bool
       then nth (Z.to_nat a) row 0 - ln (reduce_sum (map exp row))
       else 0)
    action logits.
Proof.
  intros H. unfold mlp_categorical_policy. simpl snd.
  revert action; induction H as [|row logits L _ IH]; intros [|a action];
    try reflexivity.
  simpl map. rewrite !map2_cons. f_equal; [|apply IH].
  apply picked_logp. exact L.
Qed.

Lemma categorical_logp_witness :
  Forall (fun row => length row = 2%nat) [[1; 3]; [1; 3]] /\
  snd (mlp_categorical_policy 2 [[1; 3]; [1; 3]] [0; 0]%Z (Some [1; 5]%Z)) =
  [3 - ln (reduce_sum (map exp [1; 3])); 0].
Proof.
  assert (H : Forall (fun row : list R => length row = 2%nat) [[1; 3]; [1; 3]])
    by (repeat constructor).
  split; [exact H|].
  exact (categorical_logp 2 [[1; 3]; [1; 3]] [0; 0]%Z [1; 5]%Z H).
Defined.

Lemma exp_sum_positive row : row <> [] -> 0 < reduce_sum (map exp row).
Proof.
  intros H. destruct row as [|a row]; [congruence|]. clear H.
  revert a; induction row as [|b row IH]; intros a; simpl.
  - pose proof (exp_pos a). lra.
  - pose proof (exp_pos a). specialize (IH b). simpl in IH. lra.
Qed.

Lemma exp_shifted_sum c row :
  reduce_sum (map (fun l => exp (l - c)) row) = reduce_sum (map exp row) * exp (- c).
Proof.
  induction row as [|a row IH]; simpl; [ring|].
  rewrite IH. unfold Rminus. rewrite exp_plus. ring.
Qed.

Lemma map_nth_seq {A B} (f : A -> B) (l : list A) (d : A) :
  map (fun k => f (nth k l d)) (seq 0 (length l)) = map f l.
Proof.
  apply (nth_ext _ _ (f d) (f d)).
  - rewrite !length_map, length_seq. reflexivity.
  - intros n Hn. rewrite length_map, length_seq in Hn.
    rewrite (map_nth f l d).
    rewrite (nth_indep _ (f d) ((fun k => f (nth k l d)) 0%nat))
      by (rewrite length_map, length_seq; exact Hn).
    rewrite (map_nth (fun k => f (nth k l d))).
    rewrite seq_nth by exact Hn. reflexivity.
Qed.

(** X21: over one row of [act_dim >= 1] logits, the probabilities
    [exp logp] of the actions [0 .. act_dim-1] under the categorical policy
    add up to one. *)
Theorem categorical_probabilities_sum act_dim row sample :
  length row = act_dim -> row <> [] ->
  reduce_sum
    (map (fun a =>
            exp (hd 0 (snd (mlp_categorical_policy act_dim [row] sample
                              (Some [Z.of_nat a])))))
         (seq 0 act_dim)) = 1.
Proof.
  intros L Hne.
  pose proof (exp_sum_positive row Hne) as Hpos.
  set (c := ln (reduce_sum (map exp row))).
  transitivity (reduce_sum (map (fun k => exp (nth k row 0 - c)) (seq 0 act_dim))).
  - f_equal. apply map_ext_in. intros a Ha. apply in_seq in Ha.
    unfold mlp_categorical_policy. simpl. rewrite picked_logp by exact L.
    replace ((0 <=? Z.of_nat a)%Z && (Z.of_nat a <? Z.of_nat act_dim)%Z)%bool
      with true.
    + rewrite Nat2Z.id. reflexivity.
    + symmetry. apply andb_true_iff. split; [apply Z.leb_le|apply Z.ltb_lt]; lia.
  - rewrite <- L. rewrite (map_nth_seq (fun l => exp (l - c)) row 0).
    rewrite exp_shifted_sum. unfold c. rewrite exp_Ropp, exp_ln by exact Hpos.
    field. lra.
Qed.

Lemma categorical_probabilities_sum_witness :
  length [1; 3] = 2%nat /\ [1; 3] <> [] /\
  reduce_sum
    (map (fun a =>
            exp (hd 0 (snd (mlp_categorical_policy 2 [[1; 3]] [0%Z]
                              (Some [Z.of_nat a])))))
         (seq 0 2)) = 1.
Proof.
  assert (N : [1; 3] <> []) by discriminate.
  split; [reflexivity|]. split; [exact N|].
  exact (categorical_probabilities_sum 2 [1; 3] [0%Z] eq_refl N).
Defined.

Lemma sampled_row ls m n :
  length m = length ls -> length n = length ls ->
  map3 pre_sum (Np.map2 Rplus m (Np.map2 Rmult n (map exp ls))) m ls =
  Np.map2 (fun nj lj => pre_sum (nj * exp lj) 0 lj) n ls.
Proof.
  revert m n; induction ls as [|l ls IH]; intros [|m0 m] [|n0 n] Lm Ln;
    try discriminate; [reflexivity|].
  simpl in Lm, Ln. injection Lm as Lm. injection Ln as Ln.
  simpl map. rewrite !map2_cons. simpl map3. rewrite IH by assumption.
  f_equal. unfold pre_sum.
  replace (m0 + n0 * exp l - m0) with (n0 * exp l - 0) by ring. reflexivity.
Qed.

(** X22: the log-probability the Gaussian policy reports for the action
    it has just sampled is a function of the noise drawn and of [log_std]
    alone: the mean the network produced cancels out. *)
Theorem gaussian_sample_logp log_std mu noise :
  Forall2 (fun m n => length m = length log_std /\ length n = length log_std)
          mu noise ->
  snd (mlp_gaussian_policy log_std mu noise None) =
  map (fun n =>
         reduce_sum
           (Np.map2 (fun nj lj => pre_sum (nj * exp lj) 0 lj) n log_std))
      noise.
Proof.
  unfold mlp_gaussian_policy, gaussian_likelihood. simpl snd.
  induction 1 as [|m n mu noise [Lm Ln] _ IH]; [reflexivity|].
  rewrite !map2_cons. simpl map. f_equal; [|exact IH].
  rewrite sampled_row by assumption. reflexivity.
Qed.

Lemma gaussian_sample_logp_witness :
  Forall2 (fun m n : list R => length m = length [-0.5; -0.5] /\
                               length n = length [-0.5; -0.5])
          [[3; 4]] [[1; -1]] /\
  snd (mlp_gaussian_policy [-0.5; -0.5] [[3; 4]] [[1; -1]] None) =
  snd (mlp_gaussian_policy [-0.5; -0.5] [[0; 0]] [[1; -1]] None).
Proof.
  assert (H : forall mu : list R, length mu = 2%nat ->
            Forall2 (fun m n : list R => length m = length [-0.5; -0.5] /\
                                         length n = length [-0.5; -0.5])
                    [mu] [[1; -1]]).
  { intros mu L. constructor; [split; [exact L|reflexivity]|constructor]. }
  split; [exact (H [3; 4] eq_refl)|].
  rewrite (gaussian_sample_logp [-0.5; -0.5] [[3; 4]] [[1; -1]]
             (H [3; 4] eq_refl)).
  rewrite (gaussian_sample_logp [-0.5; -0.5] [[0; 0]] [[1; -1]]
             (H [0; 0] eq_refl)).
  reflexivity.
Defined.

(** ** The rewards the loop stores *)

Lemma store_rew_slot {Obs Act} (b b' : VPGBuffer Obs Act) obs act rew val logp :
  store b obs act rew val logp = Ok b' ->
  nth_error (rew_buf b') (ptr b) = Some rew.
Proof.
  unfold store. destruct (ptr b <? max_size b); [|discriminate].
  destruct (Np.set_item (obs_buf b) _ _) as [o'|]; [|discriminate].
  destruct (Np.set_item (act_buf b) _ _) as [a'|]; [|discriminate].
  destruct (Np.set_item (rew_buf b) _ _) as [r'|] eqn:Er; [|discriminate].
  destruct (Np.set_item (val_buf b) _ _) as [v'|]; [|discriminate].
  destruct (Np.set_item (logp_buf b) _ _) as [l'|]; [|discriminate].
  simpl. intros H; injection H as <-. simpl.
  apply (set_item_nth_error _ _ _ _ Er).
Qed.

Section LateRewards.

Context {Obs Act Env AC : Type}.
Variable obs_zero : Obs.
Variable act_zero : Act.
Variable env_reset : Env -> Obs * Env.
Variable env_step : Env -> Act -> (Obs * R * bool) * Env.
Variable actor_critic : AC -> Obs -> (Act * R * R) * AC.
Variable ac_update : AC -> Batch Obs Act -> AC.
Variable local_steps_per_epoch : nat.
Variable max_ep_len : Z.
Variable peers : nat -> list (list xreal).

Implicit Types s : LoopState Obs Act Env AC.

Local Abbreviation iteration' :=
  (iteration env_reset env_step actor_critic local_steps_per_epoch max_ep_len).
Local Abbreviation iterations' :=
  (iterations env_reset env_step actor_critic local_steps_per_epoch max_ep_len).
Local Abbreviation run_epoch' :=
  (run_epoch env_reset env_step actor_critic ac_update
     local_steps_per_epoch max_ep_len peers).
Local Abbreviation run_epochs' :=
  (run_epochs env_reset env_step actor_critic ac_update
     local_steps_per_epoch max_ep_len peers).
Local Abbreviation collecting' := (collecting local_steps_per_epoch).
Local Abbreviation late_step' :=
  (late_step env_reset env_step actor_critic local_steps_per_epoch max_ep_len).
Local Abbreviation late_run' :=
  (late_run env_reset env_step actor_critic local_steps_per_epoch max_ep_len).
Local Abbreviation late_epochs' :=
  (late_epochs env_reset env_step actor_critic ac_update
     local_steps_per_epoch max_ep_len peers).

Lemma iteration_late t s :
  collecting' t s -> (t < local_steps_per_epoch)%nat ->
  exists s' ts,
    iteration' t s = Ok (s', ts) /\ late_step' t s ts s' /\ collecting' (S t) s'.
Proof.
  intros (Hs & Hc & Hp & Hm) Ht. unfold iteration, late_step.
  destruct (actor_critic (st_ac s) (st_o s)) as [[[a logp_t] v_t] ac'].
  destruct (store_inside (st_buf s) (st_o s) a (st_r s) v_t logp_t Hs)
    as (b1 & E1 & Hp1 & Hq1 & Hm1 & _ & _ & Hs1); [lia|].
  pose proof (store_rew_slot _ _ _ _ _ _ _ E1) as Hslot.
  rewrite E1. simpl bind.
  destruct (env_step (st_env s) a) as [[[o r] d] env1].
  assert (Hc1 : cursors_ok b1).
  { destruct Hc as ((_ & Hpq) & Hq). unfold cursors_ok. lia. }
  destruct (finish_path_shaped b1 (if d then r else v_t) Hs1 Hc1)
    as (b2 & E2 & Hs2 & Hc2 & Hp2 & Hm2 & _).
  destruct (finish_path_keeps _ _ _ E2) as [Kr _].
  destruct ((d || (st_ep_len s + 1 =? max_ep_len)%Z)
            || (Z.of_nat t =? Z.of_nat local_steps_per_epoch - 1)%Z) eqn:Ecut.
  - rewrite E2. simpl bind. destruct (env_reset env1) as [o0 env2] eqn:Er.
    do 2 eexists. split; [reflexivity|]. simpl.
    split.
    + exists b1. split; [reflexivity|]. split; [exact Hslot|].
      split; [rewrite Kr; exact Hslot|].
      do 4 (split; [reflexivity|]).
      split; [reflexivity|]. split; [exact E2|]. split; reflexivity.
    + unfold collecting; simpl. do 2 (split; [assumption|]). split; lia.
  - do 2 eexists. split; [reflexivity|]. simpl.
    split.
    + exists b1. split; [reflexivity|]. split; [exact Hslot|].
      split; [exact Hslot|].
      do 4 (split; [reflexivity|]).
      repeat split.
    + unfold collecting; simpl. do 2 (split; [assumption|]). split; lia.
Qed.

Lemma iterations_late n t s :
  collecting' t s -> (t + n <= local_steps_per_epoch)%nat ->
  exists s' tss, iterations' n t s = Ok (s', tss) /\ late_run' t s tss s'.
Proof.
  revert t s; induction n as [|n IH]; intros t s Hc Ht.
  - exists s, []. split; reflexivity.
  - destruct (iteration_late t s Hc) as (s1 & ts & E1 & L1 & Hc1); [lia|].
    destruct (IH (S t) s1 Hc1) as (s2 & tss & E2 & L2); [lia|].
    exists s2, (ts :: tss). simpl. rewrite E1. simpl. rewrite E2. simpl.
    split; [reflexivity|]. exists s1. auto.
Qed.

Lemma run_epochs_late n epoch s :
  collecting' 0 s -> st_r s = 0 ->
  exists s' tss, run_epochs' n epoch s = Ok (s', tss) /\ late_epochs' n epoch s tss s'.
Proof.
  revert epoch s; induction n as [|n IH]; intros epoch s Hc Hr.
  - exists s, []. split; [reflexivity|]. split; reflexivity.
  - destruct (iterations_late local_steps_per_epoch 0 s Hc)
      as (s1 & tss1 & E1 & L1); [lia|].
    destruct (iterations_effects env_reset env_step actor_critic
                local_steps_per_epoch max_ep_len local_steps_per_epoch 0 s Hc)
      as (s1' & tss1' & E1' & Hc1 & Hrew & _); [lia|].
    rewrite E1 in E1'. injection E1' as <- <-.
    assert (Hbuf : rew_buf (st_buf s1) = map ts_stored_rew tss1).
    { destruct Hc1 as ((_ & _ & _ & Lr & _) & _ & _ & Hm).
      simpl in Hrew. rewrite firstn_all2 in Hrew by lia. exact Hrew. }
    destruct (update_runs ac_update local_steps_per_epoch peers epoch s1 Hc1)
      as (u & Eu & _ & Hru).
    destruct (run_epoch_runs env_reset env_step actor_critic ac_update
                local_steps_per_epoch max_ep_len peers epoch s Hc Hr)
      as (s2 & tss2 & E2 & Hc2 & Hr2 & _).
    assert (Heq : tss2 = tss1 /\ st_r s2 = st_r s1).
    { unfold run_epoch in E2. rewrite E1 in E2. simpl bind in E2.
      rewrite Eu in E2. simpl bind in E2. injection E2 as <- <-. simpl.
      split; [reflexivity|exact Hru]. }
    destruct Heq as [-> Hrs].
    destruct (IH (S epoch) s2 Hc2 Hr2) as (s3 & rest & E3 & L3).
    exists s3, (tss1 ++ rest). simpl. rewrite E2. simpl. rewrite E3. simpl.
    split; [reflexivity|].
    exists s1, s2, tss1, rest. repeat (split; [assumption || reflexivity|]).
    exact L3.
Qed.

(** C10: the whole run succeeds and takes [epochs * local_steps_per_epoch]
    timesteps.  At each of them [store] is called with the reward the loop
    carried out of the timestep before, and that is what the slot of
    [rew_buf] holds: zero at the very first step and after every reset, else
    the reward [env.step] returned one step earlier, never the reward of the
    action chosen at that timestep.  On a step where the environment
    signals [done], [finish_path] runs with the reward [env.step] has just
    returned, the environment is reset and the next step stores zero; after
    each epoch's inner loop [rew_buf] holds exactly the rewards stored. *)
Theorem rewards_are_delayed epochs g l (env : Env) (ac : AC) :
  exists s tss,
    vpg obs_zero act_zero env_reset env_step actor_critic ac_update
        local_steps_per_epoch max_ep_len peers epochs g l env ac = Ok (s, tss) /\
    length tss = (epochs * local_steps_per_epoch)%nat /\
    delayed 0 tss /\
    st_r (start obs_zero act_zero env_reset local_steps_per_epoch g l env ac) = 0 /\
    late_epochs env_reset env_step actor_critic ac_update
      local_steps_per_epoch max_ep_len peers epochs 0
      (start obs_zero act_zero env_reset local_steps_per_epoch g l env ac) tss s.
Proof.
  destruct (start_collecting obs_zero act_zero env_reset
              local_steps_per_epoch g l env ac) as [Hc Hr].
  destruct (run_epochs_run env_reset env_step actor_critic ac_update
              local_steps_per_epoch max_ep_len peers epochs 0 _ Hc Hr)
    as (s & tss & E & _ & _ & Hlen & Hdel & _).
  destruct (run_epochs_late epochs 0 _ Hc Hr) as (s' & tss' & E' & Hlate).
  rewrite E in E'. injection E' as <- <-.
  exists s, tss. unfold vpg.
  split; [exact E|]. split; [exact Hlen|]. split; [exact Hdel|].
  split; [exact Hr|exact Hlate].
Qed.

End LateRewards.

(** ** What get hands back *)

Section RoundTrip.

Context {Obs Act : Type}.
Implicit Types b : VPGBuffer Obs Act.

Lemma store_prefixes b b' obs act rew val logp :
  store b obs act rew val logp = Ok b' ->
  firstn (S (ptr b)) (obs_buf b') = firstn (ptr b) (obs_buf b) ++ [obs] /\
  firstn (S (ptr b)) (act_buf b') = firstn (ptr b) (act_buf b) ++ [act] /\
  firstn (S (ptr b)) (rew_buf b') = firstn (ptr b) (rew_buf b) ++ [rew] /\
  firstn (S (ptr b)) (val_buf b') = firstn (ptr b) (val_buf b) ++ [val] /\
  firstn (S (ptr b)) (logp_buf b') = firstn (ptr b) (logp_buf b) ++ [logp].
Proof.
  unfold store. destruct (ptr b <? max_size b); [|discriminate].
  destruct (Np.set_item (obs_buf b) _ _) as [o'|] eqn:Eo; [|discriminate].
  destruct (Np.set_item (act_buf b) _ _) as [a'|] eqn:Ea; [|discriminate].
  destruct (Np.set_item (rew_buf b) _ _) as [r'|] eqn:Er; [|discriminate].
  destruct (Np.set_item (val_buf b) _ _) as [v'|] eqn:Ev; [|discriminate].
  destruct (Np.set_item (logp_buf b) _ _) as [l'|] eqn:El; [|discriminate].
  simpl. intros H; injection H as <-. simpl.
  repeat split; eapply set_item_firstn; eassumption.
Qed.

Lemma finish_path_frame b b' last_val :
  finish_path b last_val = Ok b' ->
  obs_buf b' = obs_buf b /\ act_buf b' = act_buf b /\
  rew_buf b' = rew_buf b /\ val_buf b' = val_buf b /\
  logp_buf b' = logp_buf b.
Proof.
  unfold finish_path.
  destruct (Np.set_slice (adv_buf b) _ _ _); [|discriminate].
  destruct (Np.set_slice (ret_buf b) _ _ _); [|discriminate].
  simpl. intros H; injection H as <-. simpl. repeat split.
Qed.

Lemma run_calls_prefixes b cs :
  shaped b -> cursors_ok b ->
  (ptr b + count_stores cs <= max_size b)%nat ->
  exists b',
    run_calls b cs = Ok b' /\ shaped b' /\
    ptr b' = (ptr b + count_stores cs)%nat /\ max_size b' = max_size b /\
    firstn (ptr b') (obs_buf b') = firstn (ptr b) (obs_buf b) ++ stored_obs cs /\
    firstn (ptr b') (act_buf b') = firstn (ptr b) (act_buf b) ++ stored_act cs /\
    firstn (ptr b') (rew_buf b') = firstn (ptr b) (rew_buf b) ++ stored_rew cs /\
    firstn (ptr b') (val_buf b') = firstn (ptr b) (val_buf b) ++ stored_val cs /\
    firstn (ptr b') (logp_buf b') = firstn (ptr b) (logp_buf b) ++ stored_logp cs.
Proof.
  revert b; induction cs as [|c cs IH]; intros b Hs Hc Hn.
  - exists b. unfold count_stores; simpl. rewrite Nat.add_0_r, !app_nil_r.
    split; [reflexivity|]. split; [exact Hs|]. repeat split.
  - destruct c as [o a r v lp|lv]; unfold count_stores in *; simpl in Hn.
    + destruct (store_inside b o a r v lp Hs)
        as (b1 & E & Hp & Hpsi & Hm & _ & _ & Hs1); [lia|].
      destruct (store_prefixes _ _ _ _ _ _ _ E) as (Po & Pa & Pr & Pv & Pl).
      destruct (IH b1 Hs1) as (b2 & E2 & Hs2 & Hp2 & Hm2 & Qo & Qa & Qr & Qv & Ql).
      * destruct Hc as ((_ & Hpq) & Hq). unfold cursors_ok. lia.
      * lia.
      * replace (ptr b1) with (S (ptr b)) in Qo, Qa, Qr, Qv, Ql by lia.
        exists b2. simpl. rewrite E. simpl.
        split; [exact E2|]. split; [exact Hs2|].
        split; [unfold count_stores in Hp2; lia|]. split; [lia|].
        rewrite Qo, Qa, Qr, Qv, Ql, Po, Pa, Pr, Pv, Pl, <- !app_assoc.
        repeat split.
    + destruct (finish_path_shaped b lv Hs Hc)
        as (b1 & E & Hs1 & Hc1 & Hp & Hm & _).
      destruct (finish_path_frame _ _ _ E) as (Fo & Fa & Fr & Fv & Fl).
      destruct (IH b1 Hs1 Hc1) as (b2 & E2 & Hs2 & Hp2 & Hm2 & Qo & Qa & Qr & Qv & Ql).
      * lia.
      * rewrite Hp, Fo, Fa, Fr, Fv, Fl in *.
        exists b2. simpl. rewrite E. simpl.
        split; [exact E2|]. split; [exact Hs2|].
        split; [unfold count_stores in Hp2; lia|]. split; [lia|].
        repeat split; assumption.
Qed.

(** X5: filling a new buffer of capacity C with C [store]s, with any
    [finish_path]s among them, and then calling [get] gives back exactly
    what was stored: the observations, actions and log-probabilities
    returned are those the [store] calls were given, in order, and the
    advantage and return arrays have C entries.  The buffer keeps its
    capacity and still holds the stored rewards and values: [get] clears
    nothing. *)
Theorem get_returns_what_was_stored (obs_zero : Obs) (act_zero : Act)
    C g l cs peers :
  count_stores cs = C ->
  exists b b' batch,
    run_calls (init obs_zero act_zero C g l) cs = Ok b /\
    get peers b = Ok (b', batch) /\
    batch_obs batch = stored_obs cs /\
    batch_act batch = stored_act cs /\
    batch_logp batch = stored_logp cs /\
    batch_ret batch = ret_buf b /\
    length (batch_adv batch) = C /\ length (batch_ret batch) = C /\
    max_size b' = C /\
    obs_buf b' = stored_obs cs /\ act_buf b' = stored_act cs /\
    rew_buf b' = stored_rew cs /\ val_buf b' = stored_val cs /\
    logp_buf b' = stored_logp cs /\ ret_buf b' = ret_buf b.
Proof.
  intros Hn.
  destruct (run_calls_prefixes (init obs_zero act_zero C g l) cs)
    as (b & E & Hs & Hp & Hm & Qo & Qa & Qr & Qv & Ql).
  { apply init_shaped. }
  { unfold cursors_ok; simpl; lia. }
  { simpl; lia. }
  simpl in Hp, Hm, Qo, Qa, Qr, Qv, Ql.
  pose proof Hs as (Lo & La & Ladv & Lr & Lret & Lv & Ll).
  rewrite firstn_all2 in Qo, Qa, Qr, Qv, Ql by lia.
  exists b. unfold get. replace (ptr b =? max_size b)%nat with true
    by (symmetry; apply Nat.eqb_eq; lia).
  destruct (mpi_statistics_scalar peers (adv_buf b)) as [m sd].
  do 2 eexists. split; [exact E|]. split; [reflexivity|]. simpl.
  unfold normalize. rewrite length_map.
  repeat split; try assumption; lia.
Qed.

End RoundTrip.

Lemma get_returns_what_was_stored_witness :
  count_stores [Store tt tt 1 4 0; FinishPath 0; Store tt tt 2 5 0] = 2%nat /\
  exists b b' batch,
    run_calls (init tt tt 2 0.99 0.95)
      [Store tt tt 1 4 0; FinishPath 0; Store tt tt 2 5 0] = Ok b /\
    get [] b = Ok (b', batch) /\
    batch_logp batch = [0; 0] /\ rew_buf b' = [1; 2] /\ val_buf b' = [4; 5].
Proof.
  split; [reflexivity|].
  destruct (get_returns_what_was_stored tt tt 2 0.99 0.95
              [Store tt tt 1 4 0; FinishPath 0; Store tt tt 2 5 0] [] eq_refl)
    as (b & b' & batch & E & G & _ & _ & Hl & _ & _ & _ & _ & _ & _ & Hr & Hv & _).
  exists b, b', batch. repeat split; assumption.
Defined.

(** On the small environment, whose every step pays reward 1: an epoch of
    three steps that never ends an episode leaves the rewards [0, 1, 1] in
    the buffer, one step late, and the reward of the last step is stored
    nowhere: the path is cut with the value [6] of the observation the last
    action was chosen from. *)
Lemma toy_epoch_rewards :
  exists s' tss,
    iterations toy_reset (toy_step false) toy_actor_critic 3 1000 3 0 (toy_start 3)
      = Ok (s', tss) /\
    rew_buf (st_buf s') = [0; 1; 1] /\
    map ts_env_rew tss = [1; 1; 1] /\
    map ts_last_val tss = [None; None; Some 6].
Proof.
  unfold toy_start, start. simpl.
  do 2 eexists. split; [reflexivity|]. simpl.
  split; [reflexivity|]. split; reflexivity.
Qed.

